(** * quinn-memory-mcp-server: the memory store and its two tools

  A shallow embedding of the server class [QuinnMemoryServer] in its two
  builds:

  - [src/src/index.ts], the build that keeps every memory in the array
    [this.memories] (module [InMemory] below);
  - [src/tsup.config.ts] (from its shebang line on), the build that writes
    to DragonflyDB through a Redis client and falls back to the array when
    a Redis command throws (module [Dragonfly] below).

  How the program is modelled:

  - a method of the class is a computation over the fields of the server
    that returns a value or throws ([M]); [try]/[catch] is [try_catch];
  - arrays of [Memory] objects are objects of a heap, because [sort] works
    in place while [filter] and [slice] return new arrays;
  - the Redis server is a finite map from keys to records and a finite map
    from keys to sorted sets; a command that throws has changed nothing;
    keys and members are the strings the program builds;
  - what a call reads from outside (the random number as printed in base
    36, the clock, whether each Redis command goes through) comes with the
    call as a [World];
  - strings are Rocq strings; [toLowerCase] is a parameter ([JsRuntime]);
    a [Date] is its time value in milliseconds. *)

From Stdlib Require Import ZArith Ascii String Permutation Sorted.
From stdpp Require Import gmap strings list fin_maps pretty.

Local Open Scope Z_scope.
#[local] Set Warnings "-register-all".

(* ===================================================================== *)
(** * JavaScript strings *)
(* ===================================================================== *)

Module JsString.

(** [s.substring(start, end)]: both indices are clamped to the length of
    the string and swapped when [start > end]. *)
Definition substring (start end_ : nat) (s : string) : string :=
  let len := String.length s in
  let fs := Nat.min start len in
  let fe := Nat.min end_ len in
  let from := Nat.min fs fe in
  let to := Nat.max fs fe in
  String.substring from (to - from) s.

(** [s.startsWith(p)], the test [includes] repeats at every position. *)
Fixpoint startsWith (p s : string) : bool :=
  match p, s with
  | EmptyString, _ => true
  | String _ _, EmptyString => false
  | String a p', String b s' => if Ascii.eqb a b then startsWith p' s' else false
  end.

(** [s.includes(q)]: [q] occurs in [s] at some position. *)
Fixpoint includes (s q : string) : bool :=
  startsWith q s ||
  match s with
  | EmptyString => false
  | String _ s' => includes s' q
  end.

(** The characters [0-9a-z] that [Number.prototype.toString(36)] prints. *)
Definition is_base36 (c : ascii) : bool :=
  let n := nat_of_ascii c in
  ((48 <=? n)%nat && (n <=? 57)%nat) || ((97 <=? n)%nat && (n <=? 122)%nat).

Fixpoint all_chars (p : ascii -> bool) (s : string) : bool :=
  match s with
  | EmptyString => true
  | String c s' => p c && all_chars p s'
  end.

(** The shape of [x.toString(36)] for a number [0 <= x < 1]: either ["0"]
    or ["0."] followed by at least one base-36 digit. *)
Definition radix36_fraction (s : string) : bool :=
  match s with
  | String "0" EmptyString => true
  | String "0" (String "." (String d ds)) => is_base36 d && all_chars is_base36 ds
  | _ => false
  end.

(** [String(n)] for a non-negative integer. *)
Definition of_nat (n : nat) : string := pretty (N.of_nat n).

(** [parts.join(sep)] *)
Fixpoint join (sep : string) (parts : list string) : string :=
  match parts with
  | [] => ""
  | [p] => p
  | p :: rest => p +:+ sep +:+ join sep rest
  end.

End JsString.

(* ===================================================================== *)
(** * Values that arrive as tool arguments *)
(* ===================================================================== *)

(** [request.params.arguments] is typed [any]: whatever [JSON.parse] made of
  the request body, or [undefined] when the member is absent. *)
Inductive jsval : Type :=
  | JUndefined
  | JNull
  | JBool (b : bool)
  | JNum (n : Z)
  | JStr (s : string)
  | JArr (items : list jsval)
  | JObj (members : list (string * jsval)).

(** [o[k]] on the members of an object: [undefined] when [k] is absent.
    An object has one value per key; should a list name a key twice, the
    first entry is the value. *)
Fixpoint member (k : string) (members : list (string * jsval)) : jsval :=
  match members with
  | [] => JUndefined
  | (k', v) :: rest => if String.eqb k k' then v else member k rest
  end.

(* ===================================================================== *)
(** * Errors *)
(* ===================================================================== *)

(** [ErrorCode] of the MCP SDK. *)
Inductive ErrorCode : Type :=
  | ConnectionClosed
  | RequestTimeout
  | ParseError
  | InvalidRequest
  | MethodNotFound
  | InvalidParams
  | InternalError.

(** One issue of a [ZodError]: the path of the offending value ([[]] for
  the argument object itself) and what the schema expected there. *)
Record ZodIssue : Type := { issue_path : list string; issue_expected : string }.

(** What the code can throw. The message of an [McpError] is kept in the
  form the template literal builds it from. *)
Inductive exn : Type :=
  | ZodError (issues : list ZodIssue)
  | RedisError
  | McpError (code : ErrorCode) (message : McpMessage)
with McpMessage : Type :=
  | UnknownTool (name : jsval)
  | ToolExecutionFailed (cause : exn).

(** [error instanceof McpError] *)
Definition instanceof_McpError (e : exn) : bool :=
  match e with
  | McpError _ _ => true
  | _ => false
  end.

(* ===================================================================== *)
(** * Zod schemas *)
(* ===================================================================== *)

Module Zod.

(** [z.string()]: accepts exactly the values with [typeof v === "string"],
    the empty string included. *)
Definition string_ (path : list string) (v : jsval) : list ZodIssue + string :=
  match v with
  | JStr s => inr s
  | _ => inl [ {| issue_path := path; issue_expected := "string" |} ]
  end.

(** [z.string().default(d)]: [undefined] becomes [d], anything else goes
    through [z.string()]. *)
Definition string_default (d : string) (path : list string) (v : jsval)
  : list ZodIssue + string :=
  match v with
  | JUndefined => inr d
  | _ => string_ path v
  end.

(** [z.object({ k1: s1, k2: s2 }).parse(args)]: [args] must be an object
    (not [null], not an array); the issues of both members are collected;
    unknown members are dropped. *)
Definition object2 (k1 : string) (s1 : list string -> jsval -> list ZodIssue + string)
                   (k2 : string) (s2 : list string -> jsval -> list ZodIssue + string)
                   (args : jsval) : exn + (string * string) :=
  match args with
  | JObj members =>
      match s1 [k1] (member k1 members), s2 [k2] (member k2 members) with
      | inr a, inr b => inr (a, b)
      | inl i1, inr _ => inl (ZodError i1)
      | inr _, inl i2 => inl (ZodError i2)
      | inl i1, inl i2 => inl (ZodError (i1 ++ i2))
      end
  | _ => inl (ZodError [ {| issue_path := []; issue_expected := "object" |} ])
  end.

End Zod.

(** The schema of [addMemory]. *)
Definition addMemory_schema : jsval -> exn + (string * string) :=
  Zod.object2 "content" Zod.string_ "userId" (Zod.string_default "quinn_may").

(** The schema of [searchMemories]. *)
Definition searchMemories_schema : jsval -> exn + (string * string) :=
  Zod.object2 "query" Zod.string_ "userId" (Zod.string_default "quinn_may").

(* ===================================================================== *)
(** * Dates *)
(* ===================================================================== *)

(** A [Date] is its time value, the milliseconds since the epoch, which is
    what [getTime()] returns. [new Date()] is always a valid date. *)
Module JsDate.

Definition msPerDay : Z := 86400000.

(** Left-pads the decimal digits of a non-negative number with zeros. *)
Definition pad (width : nat) (n : Z) : string :=
  let digits := pretty (Z.to_N n) in
  String.concat "" (replicate (width - String.length digits) "0") +:+ digits.

(** Year, month and day of the month of a day number (days since the
    epoch) in the proleptic Gregorian calendar. *)
Definition civil_from_days (days : Z) : Z * Z * Z :=
  let z := days + 719468 in
  let era := z / 146097 in
  let doe := z - era * 146097 in
  let yoe := (doe - doe / 1460 + doe / 36524 - doe / 146096) / 365 in
  let doy := doe - (365 * yoe + yoe / 4 - yoe / 100) in
  let mp := (5 * doy + 2) / 153 in
  let d := doy - (153 * mp + 2) / 5 + 1 in
  let m := if mp <? 10 then mp + 3 else mp - 9 in
  let y := yoe + era * 400 + (if m <=? 2 then 1 else 0) in
  (y, m, d).

(** [d.toISOString()]: [YYYY-MM-DDTHH:mm:ss.sssZ], with a sign and six
    digits for years outside [0..9999]. *)
Definition toISOString (t : Z) : string :=
  let day := t / msPerDay in
  let ms := t mod msPerDay in
  let '(y, m, d) := civil_from_days day in
  let year :=
    if (0 <=? y) && (y <=? 9999) then pad 4 y
    else if y <? 0 then "-" +:+ pad 6 (- y)
    else "+" +:+ pad 6 y in
  year +:+ "-" +:+ pad 2 m +:+ "-" +:+ pad 2 d +:+ "T" +:+
  pad 2 (ms / 3600000) +:+ ":" +:+ pad 2 (ms / 60000 mod 60) +:+ ":" +:+
  pad 2 (ms / 1000 mod 60) +:+ "." +:+ pad 3 (ms mod 1000) +:+ "Z".

End JsDate.


(* ===================================================================== *)
(** * The Memory record and the arrays that hold it *)
(* ===================================================================== *)

(** [interface Memory] *)
Module Memory.
Record t : Type := make { id : string; content : string; userId : string; timestamp : Z }.
End Memory.

(** One element of [results]: the object literal [{ id, content, timestamp }].
    Its [timestamp] is the ISO string of an instant, in the fallback branch
    built by [toISOString()] and in the Redis branch read back from the
    stored JSON text; it is represented by that instant, which is what
    [new Date(timestamp).getTime()] recovers, and printed by
    [JsDate.toISOString] when the reply is formatted. *)
Module Hit.
Record t : Type := make { id : string; content : string; timestamp : Z }.
End Hit.

(** [Array.prototype.sort(cmp)] orders by the sign of [cmp a b] and is
    stable; it is modelled as an insertion sort from the right, which moves
    an element past exactly those it must follow ([cmp x y > 0]). *)
Section Sort.
Context {A : Type} (cmp : A -> A -> Z).

Fixpoint js_insert (x : A) (l : list A) : list A :=
  match l with
  | [] => [x]
  | y :: l' => if cmp x y <=? 0 then x :: y :: l' else y :: js_insert x l'
  end.

Fixpoint js_sort (l : list A) : list A :=
  match l with
  | [] => []
  | x :: l' => js_insert x (js_sort l')
  end.

End Sort.

(** [a.slice(start, end)] for non-negative indices. *)
Definition js_slice {A : Type} (start end_ : nat) (l : list A) : list A :=
  take (end_ - start) (drop start l).

(** References to array objects. *)
Definition loc : Type := positive.

(* ===================================================================== *)
(** * The Redis server behind [this.redis] *)
(* ===================================================================== *)

(** The string keys hold the JSON text of a memory, kept here in decoded
    form ([JSON.parse] undoes [JSON.stringify] on an object of four
    strings, and [new Date(s)] undoes [toISOString()]); the sorted sets map
    a member to its score. The two kinds of key never meet: one starts with
    [memory:], the other with [memories:]. *)
Module Redis.

Record t : Type := make {
  strings : gmap string Memory.t;
  zsets : gmap string (gmap string Z)
}.

Definition empty : t := {| strings := ∅; zsets := ∅ |}.

(** [SET key value] *)
Definition set (key : string) (value : Memory.t) (r : t) : t :=
  {| strings := <[key := value]> (strings r); zsets := zsets r |}.

(** [ZADD key score member] *)
Definition zadd (key : string) (score : Z) (mem : string) (r : t) : t :=
  {| strings := strings r;
     zsets := <[key := <[mem := score]> (default ∅ (zsets r !! key))]> (zsets r) |}.

(** [GET key] *)
Definition get (key : string) (r : t) : option Memory.t := strings r !! key.

(** The order of [ZREVRANGE]: higher score first, and among equal scores
    the lexicographically greater member first. *)
Definition zrev_before (a b : string * Z) : bool :=
  (a.2 >? b.2) || ((a.2 =? b.2) && negb (String.leb a.1 b.1)).

Fixpoint zrev_insert (x : string * Z) (l : list (string * Z)) : list (string * Z) :=
  match l with
  | [] => [x]
  | y :: l' => if zrev_before x y then x :: y :: l' else y :: zrev_insert x l'
  end.

(** [ZREVRANGE key start stop]: the members at the ranks [start..stop]
    (inclusive) of the reversed order; a missing key is an empty set. *)
Definition zrevrange (key : string) (start stop : nat) (r : t) : list string :=
  let entries := map_to_list (default ∅ (zsets r !! key)) in
  let ordered := foldr zrev_insert [] entries in
  (take (S stop - start) (drop start ordered)).*1.

End Redis.

(* ===================================================================== *)
(** * The server object and what a call observes of the outside world *)
(* ===================================================================== *)

(** The fields of [QuinnMemoryServer] that the tools touch: the array
    objects of the JavaScript heap, the reference held in [this.memories],
    and the state of the Redis server behind [this.redis] (unused by the
    in-memory build, which has no such field). *)
Record Server : Type := {
  heap : gmap loc (list Memory.t);
  memories : loc;
  redis : Redis.t
}.

(** What one tool call reads from outside the program: the text of
    [Math.random().toString(36)], the clock at [new Date()] and at
    [Date.now()], and whether each Redis command of the call comes back
    ([true]) or throws ([false]); [get_ok i] is the [i]-th [GET] of the
    call, counted from 0. A command that throws changes nothing. *)
Record World : Type := {
  random36 : string;
  new_Date : Z;
  Date_now : Z;
  set_ok : bool;
  zadd_ok : bool;
  zrevrange_ok : bool;
  get_ok : nat -> bool
}.

(** The one library function the model takes as given. *)
Class JsRuntime : Type := { toLowerCase : string -> string }.

(** Computations of the server: they may throw, and keep their effects on
    the server when they do. *)
Definition M (A : Type) : Type := Server -> (exn + A) * Server.

#[global] Instance M_ret : MRet M := fun A a st => (inr a, st).

#[global] Instance M_bind : MBind M := fun A B k m st =>
  match m st with
  | (inr a, st') => k a st'
  | (inl e, st') => (inl e, st')
  end.

Definition throw {A : Type} (e : exn) : M A := fun st => (inl e, st).

Definition lift {A : Type} (r : exn + A) : M A := fun st => (r, st).

(** [try { body } catch (error) { handler }] *)
Definition try_catch {A : Type} (body : M A) (handler : exn -> M A) : M A := fun st =>
  match body st with
  | (inl e, st') => handler e st'
  | (inr a, st') => (inr a, st')
  end.

(** ** Array objects *)

(** The elements of the array at [a]. *)
Definition elements_of (a : loc) (st : Server) : list Memory.t := default [] (heap st !! a).

Definition set_heap (h : gmap loc (list Memory.t)) (st : Server) : Server :=
  {| heap := h; memories := memories st; redis := redis st |}.

Definition set_redis (r : Redis.t) (st : Server) : Server :=
  {| heap := heap st; memories := memories st; redis := r |}.

(** A new array object. *)
Definition Array_new (l : list Memory.t) : M loc := fun st =>
  let a := fresh (dom (heap st)) in
  (inr a, set_heap (<[a := l]> (heap st)) st).

(** [a.filter(p)] returns a new array. *)
Definition Array_filter (p : Memory.t -> bool) (a : loc) : M loc := fun st =>
  Array_new (List.filter p (elements_of a st)) st.

(** [a.sort(cmp)] sorts [a] itself and returns it. *)
Definition Array_sort (cmp : Memory.t -> Memory.t -> Z) (a : loc) : M loc := fun st =>
  (inr a, set_heap (<[a := js_sort cmp (elements_of a st)]> (heap st)) st).

(** [a.slice(start, end)] returns a new array. *)
Definition Array_slice (start end_ : nat) (a : loc) : M loc := fun st =>
  Array_new (js_slice start end_ (elements_of a st)) st.

(** [a.push(x)] extends [a] itself and returns its new length. *)
Definition Array_push (x : Memory.t) (a : loc) : M nat := fun st =>
  let l := elements_of a st ++ [x] in
  (inr (length l), set_heap (<[a := l]> (heap st)) st).

(** [a.map(f)] into objects that are not memories: the new array is not
    shared with anything, it is returned as its elements. *)
Definition Array_map {B : Type} (f : Memory.t -> B) (a : loc) : M (list B) := fun st =>
  (inr (List.map f (elements_of a st)), st).

(** [this.memories] *)
Definition this_memories : M loc := fun st => (inr (memories st), st).

(** ** Redis commands *)

Definition redis_set (ok : bool) (key : string) (value : Memory.t) : M unit := fun st =>
  if ok then (inr tt, set_redis (Redis.set key value (redis st)) st)
  else (inl RedisError, st).

Definition redis_zadd (ok : bool) (key : string) (score : Z) (mem : string) : M unit := fun st =>
  if ok then (inr tt, set_redis (Redis.zadd key score mem (redis st)) st)
  else (inl RedisError, st).

Definition redis_zrevrange (ok : bool) (key : string) (start stop : nat) : M (list string) :=
  fun st =>
  if ok then (inr (Redis.zrevrange key start stop (redis st)), st)
  else (inl RedisError, st).

Definition redis_get (ok : bool) (key : string) : M (option Memory.t) := fun st =>
  if ok then (inr (Redis.get key (redis st)), st)
  else (inl RedisError, st).

(* ===================================================================== *)
(** * What both builds share *)
(* ===================================================================== *)

(** The value a tool returns: [{ content: [{ type: "text", text }] }]. *)
Module ToolResult.
Record block : Type := make_block { type : string; text : string }.
Record t : Type := make { content : list block }.
End ToolResult.

Definition text_result (text : string) : ToolResult.t :=
  {| ToolResult.content := [ {| ToolResult.type := "text"; ToolResult.text := text |} ] |}.

(** [request.params] of a [tools/call] request. *)
Record CallToolParams : Type := { name : jsval; arguments : jsval }.

(** [v === s] for a string literal [s]. *)
Definition strict_eq (v : jsval) (s : string) : bool :=
  match v with
  | JStr s' => String.eqb s' s
  | _ => false
  end.

(** The [id] of a new memory: [Math.random().toString(36).substring(2, 15)]. *)
Definition new_id (w : World) : string := JsString.substring 2 15 (random36 w).

(** The object literal [memory] of [addMemory]. *)
Definition new_memory (w : World) (content userId : string) : Memory.t :=
  {| Memory.id := new_id w;
     Memory.content := content;
     Memory.userId := userId;
     Memory.timestamp := new_Date w |}.

(** The text [addMemory] answers with. *)
Definition added_text (userId id : string) : string :=
  "Memory added successfully for user " +:+ userId +:+ ". Memory ID: " +:+ id.

(** The comparator of the fallback search, [b.timestamp.getTime() -
    a.timestamp.getTime()]; the time values of valid dates are integers. *)
Definition by_recency (a b : Memory.t) : Z := Memory.timestamp b - Memory.timestamp a.

(** The comparator of the Redis search,
    [new Date(b.timestamp).getTime() - new Date(a.timestamp).getTime()]. *)
Definition hit_by_recency (a b : Hit.t) : Z := Hit.timestamp b - Hit.timestamp a.

(** The filter of both searches:
    [memory.content.toLowerCase().includes(query.toLowerCase())]. *)
Definition relevant `{RT : !JsRuntime} (query : string) (content : string) : bool :=
  JsString.includes (toLowerCase content) (toLowerCase query).

(** The object literal the fallback search maps a memory to; its timestamp
    is [memory.timestamp.toISOString()]. *)
Definition to_hit (memory : Memory.t) : Hit.t :=
  {| Hit.id := Memory.id memory;
     Hit.content := Memory.content memory;
     Hit.timestamp := Memory.timestamp memory |}.

Definition dquote : string := String (ascii_of_nat 34) EmptyString.
Definition newline : string := String (ascii_of_nat 10) EmptyString.

(** One line of the listing, [`${i + 1}. [${r.timestamp}] ${r.content}`]. *)
Definition hit_line (i : nat) (r : Hit.t) : string :=
  JsString.of_nat (i + 1) +:+ ". [" +:+ JsDate.toISOString (Hit.timestamp r) +:+ "] " +:+
  Hit.content r.

(** The text [searchMemories] answers with. *)
Definition found_text (query : string) (results : list Hit.t) : string :=
  "Found " +:+ JsString.of_nat (length results) +:+ " memories for query " +:+
  dquote +:+ query +:+ dquote +:+ ":" +:+ newline +:+ newline +:+
  JsString.join newline (imap hit_line results).

(** The [catch] clause of the [tools/call] handler. *)
Definition rethrow_as_McpError {A : Type} (error : exn) : M A :=
  if instanceof_McpError error then throw error
  else throw (McpError InternalError (ToolExecutionFailed error)).

(* ===================================================================== *)
(** * The in-memory build, [src/src/index.ts] *)
(* ===================================================================== *)

Module InMemory.

Definition addMemory (w : World) (args : jsval) : M ToolResult.t :=
  '(content, userId) ← lift (addMemory_schema args);
  let memory := new_memory w content userId in
  ms ← this_memories;
  Array_push memory ms;;
  mret (text_result (added_text userId (Memory.id memory))).

(** [searchMemories] up to the point where [results] is bound. *)
Definition searchMemories_results `{RT : !JsRuntime} (args : jsval) : M (string * list Hit.t) :=
  '(query, userId) ← lift (searchMemories_schema args);
  ms ← this_memories;
  userMemories ← Array_filter (λ m, String.eqb (Memory.userId m) userId) ms;
  relevantMemories ←
    Array_filter (λ memory, relevant query (Memory.content memory)) userMemories;
  sorted ← Array_sort by_recency relevantMemories;
  sliced ← Array_slice 0 10 sorted;
  results ← Array_map to_hit sliced;
  mret (query, results).

Definition searchMemories `{RT : !JsRuntime} (args : jsval) : M ToolResult.t :=
  '(query, results) ← searchMemories_results args;
  mret (text_result (found_text query results)).

(** The handler of ["tools/call"]. *)
Definition tools_call `{RT : !JsRuntime} (w : World) (params : CallToolParams) : M ToolResult.t :=
  try_catch
    (if strict_eq (name params) "add-memory" then addMemory w (arguments params)
     else if strict_eq (name params) "search-memories" then searchMemories (arguments params)
     else throw (McpError MethodNotFound (UnknownTool (name params))))
    rethrow_as_McpError.

End InMemory.

(* ===================================================================== *)
(** * The DragonflyDB build, [src/tsup.config.ts] *)
(* ===================================================================== *)

Module Dragonfly.

(** [`memory:${userId}:${id}`] *)
Definition memoryKey (userId id : string) : string := "memory:" +:+ userId +:+ ":" +:+ id.

(** [`memories:${userId}`] *)
Definition indexKey (userId : string) : string := "memories:" +:+ userId.

Definition addMemory (w : World) (args : jsval) : M ToolResult.t :=
  '(content, userId) ← lift (addMemory_schema args);
  let memory := new_memory w content userId in
  try_catch
    (redis_set (set_ok w) (memoryKey userId (Memory.id memory)) memory;;
     redis_zadd (zadd_ok w) (indexKey userId) (Date_now w) (Memory.id memory))
    (λ error, ms ← this_memories; Array_push memory ms;; mret tt);;
  mret (text_result (added_text userId (Memory.id memory))).

(** The [for] loop over [memoryIds]; [i] counts the [GET]s issued so far
    and [memories] is the local array the loop pushes to. *)
Fixpoint collect `{RT : !JsRuntime} (w : World) (userId query : string)
    (memoryIds : list string) (i : nat) (memories : list Hit.t) : M (list Hit.t) :=
  match memoryIds with
  | [] => mret memories
  | memoryId :: rest =>
      memoryData ← redis_get (get_ok w i) (memoryKey userId memoryId);
      match memoryData with
      | Some memory =>
          if relevant query (Memory.content memory)
          then collect w userId query rest (S i) (memories ++ [to_hit memory])
          else collect w userId query rest (S i) memories
      | None => collect w userId query rest (S i) memories
      end
  end.

(** The [catch] branch of [searchMemories]. *)
Definition fallback_search `{RT : !JsRuntime} (query userId : string) : M (list Hit.t) :=
  ms ← this_memories;
  userMemories ← Array_filter (λ m, String.eqb (Memory.userId m) userId) ms;
  relevantMemories ←
    Array_filter (λ memory, relevant query (Memory.content memory)) userMemories;
  sorted ← Array_sort by_recency relevantMemories;
  sliced ← Array_slice 0 10 sorted;
  Array_map to_hit sliced.

(** [searchMemories] up to the point where [results] has its final value. *)
Definition searchMemories_results `{RT : !JsRuntime} (w : World) (args : jsval)
    : M (string * list Hit.t) :=
  '(query, userId) ← lift (searchMemories_schema args);
  results ←
    try_catch
      (memoryIds ← redis_zrevrange (zrevrange_ok w) (indexKey userId) 0 99;
       memories ← collect w userId query memoryIds 0 [];
       mret (js_slice 0 10 (js_sort hit_by_recency memories)))
      (λ error, fallback_search query userId);
  mret (query, results).

Definition searchMemories `{RT : !JsRuntime} (w : World) (args : jsval) : M ToolResult.t :=
  '(query, results) ← searchMemories_results w args;
  mret (text_result (found_text query results)).

(** The handler of ["tools/call"]. *)
Definition tools_call `{RT : !JsRuntime} (w : World) (params : CallToolParams) : M ToolResult.t :=
  try_catch
    (if strict_eq (name params) "add-memory" then addMemory w (arguments params)
     else if strict_eq (name params) "search-memories" then searchMemories w (arguments params)
     else throw (McpError MethodNotFound (UnknownTool (name params))))
    rethrow_as_McpError.

End Dragonfly.

(** The server after its constructor: [memories = []] and a Redis server
    with whatever earlier processes left in it. *)
Definition new_server (r : Redis.t) : Server :=
  {| heap := {[ 1%positive := [] ]}; memories := 1%positive; redis := r |}.

(** [toLowerCase] on strings of ASCII characters, for running examples. *)
Definition ascii_lower (c : ascii) : ascii :=
  let n := nat_of_ascii c in
  if ((65 <=? n)%nat && (n <=? 90)%nat) then ascii_of_nat (n + 32) else c.

Fixpoint ascii_toLowerCase (s : string) : string :=
  match s with
  | EmptyString => EmptyString
  | String c s' => String (ascii_lower c) (ascii_toLowerCase s')
  end.

Definition ascii_runtime : JsRuntime := {| toLowerCase := ascii_toLowerCase |}.


(* ===================================================================== *)
(** * Vocabulary of the properties *)
(* ===================================================================== *)

(** The fallback sequence: the elements of the array [this.memories]. *)
Definition fallback (st : Server) : list Memory.t := elements_of (memories st) st.

(** [this.memories] refers to an array object, as it does from the
    constructor on. *)
Definition wf (st : Server) : Prop := is_Some (heap st !! memories st).


(** A record has the durable store as a home: its key holds it. *)
Definition in_durable (m : Memory.t) (st : Server) : Prop :=
  Redis.get (Dragonfly.memoryKey (Memory.userId m) (Memory.id m)) (redis st) = Some m.

(** The two writes of the durable [put] applied to a Redis state. *)
Definition record_written (m : Memory.t) (r : Redis.t) : Redis.t :=
  Redis.set (Dragonfly.memoryKey (Memory.userId m) (Memory.id m)) m r.

Definition index_written (w : World) (m : Memory.t) (r : Redis.t) : Redis.t :=
  Redis.zadd (Dragonfly.indexKey (Memory.userId m)) (Date_now w) (Memory.id m) r.

(** The error categories of the specification at the protocol boundary:
    a validation signal is a schema error as such, or an [McpError] with
    the code the SDK has for bad arguments. *)
Definition is_validation_signal (e : exn) : bool :=
  match e with
  | ZodError _ => true
  | McpError InvalidParams _ => true
  | _ => false
  end.

(** The arguments of a call are malformed for the tool it names. *)
Definition malformed (params : CallToolParams) (cause : exn) : Prop :=
  (strict_eq (name params) "add-memory" = true ∧
   addMemory_schema (arguments params) = inl cause) ∨
  (strict_eq (name params) "search-memories" = true ∧
   searchMemories_schema (arguments params) = inl cause).

(** [args?.content], the member the add operation requires. *)
Definition content_of (args : jsval) : jsval :=
  match args with
  | JObj members => member "content" members
  | _ => JUndefined
  end.

Definition userId_of (args : jsval) : jsval :=
  match args with
  | JObj members => member "userId" members
  | _ => JUndefined
  end.

Definition is_object (args : jsval) : bool :=
  match args with
  | JObj _ => true
  | _ => false
  end.

(** [q] occurs in [s] as a substring. *)
Definition contains (s q : string) : Prop := ∃ pre suf, s = pre +:+ q +:+ suf.

(** A candidate matches a query: its content, lower-cased, contains the
    lower-cased query. *)
Definition matches `{RT : !JsRuntime} (query : string) (m : Memory.t) : Prop :=
  contains (toLowerCase (Memory.content m)) (toLowerCase query).




(** The memories of one user in the fallback sequence, oldest first. *)
Definition of_user (userId : string) (l : list Memory.t) : list Memory.t :=
  List.filter (λ m, String.eqb (Memory.userId m) userId) l.

Definition colon_free (s : string) : bool :=
  JsString.all_chars (λ c, negb (Ascii.eqb c ":")) s.

(** Every member of every sorted set is free of [:], as the ids that
    [addMemory] makes are. *)
Definition ids_ok (r : Redis.t) : Prop :=
  ∀ key zs mem score,
    Redis.zsets r !! key = Some zs → zs !! mem = Some score → colon_free mem = true.

(** Every string key holds the record it was made from. *)
Definition records_ok (r : Redis.t) : Prop :=
  ∀ key m,
    Redis.strings r !! key = Some m →
    key = Dragonfly.memoryKey (Memory.userId m) (Memory.id m) ∧
    colon_free (Memory.id m) = true.

(** The invariant of the DragonflyDB build. *)
Definition inv (st : Server) : Prop := wf st ∧ ids_ok (redis st) ∧ records_ok (redis st).

(** What a search for [userId] can read of the Redis server: the index of
    the user and the records its members point to. *)
Definition durable_view (userId : string) (r : Redis.t)
    : option (gmap string Z) * list (string * option Memory.t) :=
  (Redis.zsets r !! Dragonfly.indexKey userId,
   (λ mem, (mem, Redis.get (Dragonfly.memoryKey userId mem) r)) <$>
     Redis.zrevrange (Dragonfly.indexKey userId) 0 99 r).

(** What a search for [userId] can read of the server. *)
Definition user_view (userId : string) (st : Server)
    : list Memory.t * (option (gmap string Z) * list (string * option Memory.t)) :=
  (of_user userId (fallback st), durable_view userId (redis st)).

(** A call made on behalf of a user other than [userId]. *)
Definition by_other_user (userId : string) (params : CallToolParams) : Prop :=
  ∃ c u, u ≠ userId ∧
    ((strict_eq (name params) "add-memory" = true ∧
      addMemory_schema (arguments params) = inr (c, u)) ∨
     (strict_eq (name params) "search-memories" = true ∧
      searchMemories_schema (arguments params) = inr (c, u))).

(** The candidates of the Redis search: the records that the 100 most
    recent members of the user's index point to, in the order of the
    index. *)
Definition indexed_records (userId : string) (r : Redis.t) : list Memory.t :=
  omap (λ mem, Redis.get (Dragonfly.memoryKey userId mem) r)
       (Redis.zrevrange (Dragonfly.indexKey userId) 0 99 r).

(** The list the fallback search leaves in [sliced], as a function of the
    elements of [userMemories]. *)
Definition rank `{RT : !JsRuntime} (query : string) (candidates : list Memory.t)
    : list Memory.t :=
  js_slice 0 10
    (js_sort by_recency
       (List.filter (λ memory, relevant query (Memory.content memory)) candidates)).

(** The outcome of the [for] loop of the Redis search as a function of
    what each [GET] finds: [None] when one of them throws. *)
Fixpoint collected `{RT : !JsRuntime} (w : World) (query : string)
    (found : list (string * option Memory.t)) (i : nat) (acc : list Hit.t)
    : option (list Hit.t) :=
  match found with
  | [] => Some acc
  | (_, memoryData) :: rest =>
      if get_ok w i then
        match memoryData with
        | Some memory =>
            if relevant query (Memory.content memory)
            then collected w query rest (S i) (acc ++ [to_hit memory])
            else collected w query rest (S i) acc
        | None => collected w query rest (S i) acc
        end
      else None
  end.

(** The results of a search as a function of what the user can read. *)
Definition search_of_view `{RT : !JsRuntime} (w : World) (query userId : string)
    (view : list Memory.t * (option (gmap string Z) * list (string * option Memory.t)))
    : list Hit.t :=
  let via_fallback := to_hit <$> rank query view.1 in
  if zrevrange_ok w then
    match collected w query view.2.2 0 [] with
    | Some hits => js_slice 0 10 (js_sort hit_by_recency hits)
    | None => via_fallback
    end
  else via_fallback.

(** A call left the fields of the server as they were, apart from array
    objects it allocated for itself. *)
Definition same_stores (st st' : Server) : Prop :=
  memories st' = memories st ∧ redis st' = redis st ∧
  heap st' !! memories st = heap st !! memories st.

(** The server after [this.memories.push(m)]. *)
Definition pushed (m : Memory.t) (st : Server) : Server :=
  set_heap (<[memories st := fallback st ++ [m]]> (heap st)) st.

(** The server after a sequence of tool calls, each in its world. *)
Fixpoint Dragonfly_serve `{RT : !JsRuntime} (calls : list (World * CallToolParams))
    (st : Server) : Server :=
  match calls with
  | [] => st
  | (w, params) :: rest => Dragonfly_serve rest (Dragonfly.tools_call w params st).2
  end.

Fixpoint InMemory_serve `{RT : !JsRuntime} (calls : list (World * CallToolParams))
    (st : Server) : Server :=
  match calls with
  | [] => st
  | (w, params) :: rest => InMemory_serve rest (InMemory.tools_call w params st).2
  end.

(** The server after [addMemory] has run on valid arguments in the
    DragonflyDB build. *)
Definition added (w : World) (m : Memory.t) (st : Server) : Server :=
  if set_ok w then
    if zadd_ok w then set_redis (index_written w m (record_written m (redis st))) st
    else pushed m (set_redis (record_written m (redis st)) st)
  else pushed m st.

(** A call on behalf of a user other than [u2], in a world where
    [Math.random().toString(36)] prints a fraction. *)
Definition legal_call_of_other (u2 : string) (c : World * CallToolParams) : Prop :=
  JsString.radix36_fraction (random36 c.1) = true ∧ by_other_user u2 c.2.

(** ** Inputs for the examples *)

Definition calm : World :=
  {| random36 := "0.4fzyo82mvyr"; new_Date := 1700000000000; Date_now := 1700000000001;
     set_ok := true; zadd_ok := true; zrevrange_ok := true; get_ok := λ _, true |}.

(** The index write throws after the record write went through, and
    [Math.random()] returned 0.5, which prints as [0.i] in base 36. *)
Definition index_down : World :=
  {| random36 := "0.i"; new_Date := 1700000000500; Date_now := 1700000000501;
     set_ok := true; zadd_ok := false; zrevrange_ok := true; get_ok := λ _, true |}.

(** Every Redis command throws. *)
Definition outage : World :=
  {| random36 := "0.k2j9x0q1c7"; new_Date := 1700000001000; Date_now := 1700000001001;
     set_ok := false; zadd_ok := false; zrevrange_ok := false; get_ok := λ _, false |}.

Definition add_args (content userId : string) : jsval :=
  JObj [("content", JStr content); ("userId", JStr userId)].

Definition search_args (query userId : string) : jsval :=
  JObj [("query", JStr query); ("userId", JStr userId)].

Definition call (tool : string) (args : jsval) : CallToolParams :=
  {| name := JStr tool; arguments := args |}.

Definition server0 : Server := new_server Redis.empty.

(* ===================================================================== *)
(** * The HTTP shell: the hook and the routes of [setupFastifyServer] *)
(* ===================================================================== *)

Module Http.

(** What the hook and the routes read of a request: [request.url],
    [request.headers.authorization], [request.headers['mcp-session-id']]
    (a header is a string, or [undefined] when the request has none) and
    [request.body]. *)
Record Request : Type := {
  url : string;
  authorization : option string;
  mcp_session_id : option string;
  body : jsval
}.


(** [value || fallback] for a value that is a string or [undefined]: the
    empty string is falsy too. *)
Definition or_default (value : option string) (fallback : string) : string :=
  match value with
  | Some (String c s) => String c s
  | _ => fallback
  end.

(** [s.substring(start)] *)
Definition substring_from (start : nat) (s : string) : string :=
  JsString.substring start (String.length s) s.

(** What the [preHandler] hook does with a request: it returns without a
    word, or it sends a reply of its own. *)
Inductive hook_result : Type :=
  | Continue
  | Send (code : nat) (payload : jsval).

(** The bearer-token hook; [MCP_BEARER_TOKEN] is [process.env.MCP_BEARER_TOKEN]. *)
Definition preHandler (MCP_BEARER_TOKEN : option string) (request : Request) : hook_result :=
  if String.eqb (url request) "/health" then Continue
  else
    match authorization request with
    | None => Send 401 (JObj [("error", JStr "Bearer token required")])
    | Some authHeader =>
        if String.eqb authHeader "" || negb (JsString.startsWith "Bearer " authHeader)
        then Send 401 (JObj [("error", JStr "Bearer token required")])
        else
          let token := substring_from 7 authHeader in
          let validToken := or_default MCP_BEARER_TOKEN "default-token-change-me" in
          if negb (String.eqb token validToken)
          then Send 401 (JObj [("error", JStr "Invalid bearer token")])
          else Continue
    end.




(** The object [GET /health] returns in the DragonflyDB build. *)
Record Health : Type := {
  health_status : string;
  health_timestamp : string;
  dragonfly : string;
  health_fallback : string
}.

(** [PING] *)
Definition redis_ping (ok : bool) : M unit := fun st =>
  if ok then (inr tt, st) else (inl RedisError, st).

(** The route [GET /health] of the DragonflyDB build; [now] is the clock at
    [new Date()]. *)
Definition health (ping_ok : bool) (now : Z) : M Health :=
  dragonflyStatus ←
    try_catch (redis_ping ping_ok;; mret "connected") (λ error, mret "unavailable");
  mret {| health_status := "healthy";
          health_timestamp := JsDate.toISOString now;
          dragonfly := dragonflyStatus;
          health_fallback :=
            if String.eqb dragonflyStatus "unavailable" then "in-memory" else "not needed" |}.

End Http.

(* ===================================================================== *)
(** * The tools the server lists *)
(* ===================================================================== *)

Module ToolsList.

Record property : Type := {
  type : string;
  description : string;
  default : option string
}.

Record schema : Type := {
  schema_type : string;
  properties : list (string * property);
  required : list string
}.

Record tool : Type := {
  name : string;
  tool_description : string;
  inputSchema : schema
}.

(** The answer of the ["tools/list"] handler. *)
Definition tools : list tool :=
  [ {| name := "add-memory";
       tool_description := "Add a new memory for a user";
       inputSchema :=
         {| schema_type := "object";
            properties :=
              [("content",
                {| type := "string";
                   description := "The content to store in memory";
                   default := None |});
               ("userId",
                {| type := "string";
                   description :=
                     "User ID for memory storage. Defaults to 'quinn_may' if not provided.";
                   default := Some "quinn_may" |})];
            required := ["content"] |} |};
    {| name := "search-memories";
       tool_description := "Search through stored memories for a user";
       inputSchema :=
         {| schema_type := "object";
            properties :=
              [("query",
                {| type := "string";
                   description := "The search query to find relevant memories";
                   default := None |});
               ("userId",
                {| type := "string";
                   description :=
                     "User ID for memory storage. Defaults to 'quinn_may' if not provided.";
                   default := Some "quinn_may" |})];
            required := ["query"] |} |} ].

(** A value has a JSON Schema type. *)
Definition has_type (ty : string) (v : jsval) : bool :=
  match v with
  | JUndefined => false
  | JNull => String.eqb ty "null"
  | JBool _ => String.eqb ty "boolean"
  | JNum _ => String.eqb ty "number"
  | JStr _ => String.eqb ty "string"
  | JArr _ => String.eqb ty "array"
  | JObj _ => String.eqb ty "object"
  end.

Definition is_undefined (v : jsval) : bool :=
  match v with
  | JUndefined => true
  | _ => false
  end.

(** The arguments an input schema of this shape admits: a value of the
    schema's type, with every required member present and every declared
    member of its declared type when present. *)
Definition admits (s : schema) (args : jsval) : bool :=
  has_type (schema_type s) args &&
  match args with
  | JObj members =>
      forallb (λ k, negb (is_undefined (member k members))) (required s) &&
      forallb (λ kp, is_undefined (member kp.1 members) ||
                     has_type (type kp.2) (member kp.1 members))
              (properties s)
  | _ => true
  end.

End ToolsList.

(* ===================================================================== *)
(** * Vocabulary of the further properties *)
(* ===================================================================== *)

(** The results are in the order of the ranking: no result is more recent
    than the one before it. *)
Definition most_recent_first (results : list Hit.t) : Prop :=
  StronglySorted (λ a b, Hit.timestamp b ≤ Hit.timestamp a) results.

(** Every Redis command of the call goes through. *)
Definition healthy (w : World) : Prop :=
  set_ok w = true ∧ zadd_ok w = true ∧ zrevrange_ok w = true ∧ ∀ j, get_ok w j = true.

(** Every write and the index read of the call throw. *)
Definition down (w : World) : Prop := set_ok w = false ∧ zrevrange_ok w = false.

(** The members of the index of a user. *)
Definition index_of (userId : string) (r : Redis.t) : gmap string Z :=
  default ∅ (Redis.zsets r !! Dragonfly.indexKey userId).

(** The replies of a sequence of calls, in order. *)
Fixpoint Dragonfly_replies `{RT : !JsRuntime} (calls : list (World * CallToolParams))
    (st : Server) : list (exn + ToolResult.t) :=
  match calls with
  | [] => []
  | (w, params) :: rest =>
      (Dragonfly.tools_call w params st).1 ::
      Dragonfly_replies rest (Dragonfly.tools_call w params st).2
  end.

Fixpoint InMemory_replies `{RT : !JsRuntime} (calls : list (World * CallToolParams))
    (st : Server) : list (exn + ToolResult.t) :=
  match calls with
  | [] => []
  | (w, params) :: rest =>
      (InMemory.tools_call w params st).1 ::
      InMemory_replies rest (InMemory.tools_call w params st).2
  end.

(** The results of a search call, or the error it throws. *)
Definition Dragonfly_results `{RT : !JsRuntime} (w : World) (args : jsval) (st : Server)
    : exn + list Hit.t :=
  match (Dragonfly.searchMemories_results w args st).1 with
  | inr (_, results) => inr results
  | inl e => inl e
  end.

Definition InMemory_results `{RT : !JsRuntime} (args : jsval) (st : Server)
    : exn + list Hit.t :=
  match (InMemory.searchMemories_results args st).1 with
  | inr (_, results) => inr results
  | inl e => inl e
  end.

(** A world in which nothing fails and the clock reads later. *)
Definition calm_later : World :=
  {| random36 := "0.9zk3p1q7ab"; new_Date := 1700000002000; Date_now := 1700000002001;
     set_ok := true; zadd_ok := true; zrevrange_ok := true; get_ok := λ _, true |}.

(* ===================================================================== *)
(** * Strings *)
(* ===================================================================== *)

#[local] Arguments String.append !_ _ / : simpl nomatch.

Lemma startsWith_spec (p s : string) :
  JsString.startsWith p s = true ↔ ∃ suf, s = p +:+ suf.
Proof.
  revert s. induction p as [|a p IH]; intros s; simpl.
  - split; [intros _; by exists s | done].
  - destruct s as [|b s].
    + split; [done | intros [suf H]; discriminate].
    + destruct (Ascii.eqb_spec a b) as [->|Hne].
      * rewrite IH. split; intros [suf H]; exists suf.
        -- by rewrite H.
        -- by injection H.
      * split; [done | intros [suf H]; injection H; intros; congruence].
Qed.

Lemma includes_spec (s q : string) : JsString.includes s q = true ↔ contains s q.
Proof.
  unfold contains. induction s as [|c s IH]; simpl.
  - rewrite orb_false_r, startsWith_spec. split.
    + intros [suf ->]. by exists "", suf.
    + intros (pre & suf & H). destruct pre; [by exists suf | discriminate].
  - rewrite orb_true_iff, startsWith_spec, IH. split.
    + intros [[suf H] | (pre & suf & H)].
      * by exists "", suf.
      * exists (String c pre), suf. simpl. by rewrite H.
    + intros (pre & suf & H). destruct pre as [|c' pre]; simpl in H.
      * left. by exists suf.
      * right. exists pre, suf. by injection H.
Qed.


Lemma all_chars_impl (p q : ascii → bool) (s : string) :
  (∀ c, p c = true → q c = true) →
  JsString.all_chars p s = true → JsString.all_chars q s = true.
Proof.
  intros Hpq. induction s as [|c s IH]; simpl; [done |].
  rewrite !andb_true_iff. intros [Hc Hs]. auto.
Qed.

Lemma substring_length (n m : nat) (s : string) :
  (String.length (String.substring n m s) ≤ m)%nat.
Proof.
  revert n m. induction s as [|c s IH]; intros [|n] [|m]; simpl; try lia.
  - specialize (IH 0%nat m). lia.
  - apply (IH n 0%nat).
  - apply (IH n (S m)).
Qed.

Lemma substring_all_chars (p : ascii → bool) (n m : nat) (s : string) :
  JsString.all_chars p s = true → JsString.all_chars p (String.substring n m s) = true.
Proof.
  revert n m. induction s as [|c s IH]; intros [|n] [|m]; simpl; try done.
  - rewrite !andb_true_iff. intros [Hc Hs]. split; [done | by apply IH].
  - rewrite andb_true_iff. intros [_ Hs]. by apply IH.
  - rewrite andb_true_iff. intros [_ Hs]. by apply IH.
Qed.

Lemma js_substring_length (a b : nat) (s : string) :
  (a ≤ b)%nat → (String.length (JsString.substring a b s) ≤ b - a)%nat.
Proof.
  intros Hab. unfold JsString.substring.
  etransitivity; [apply substring_length | lia].
Qed.

Lemma new_id_base36 (s : string) :
  JsString.radix36_fraction s = true →
  JsString.all_chars JsString.is_base36 (JsString.substring 2 15 s) = true.
Proof.
  destruct s as [|c0 [|c1 [|d ds]]]; try reflexivity.
  intros H.
  assert (JsString.all_chars JsString.is_base36 (String d ds) = true) as Hd.
  { simpl in H. destruct c0 as [[] [] [] [] [] [] [] []]; try done.
    destruct c1 as [[] [] [] [] [] [] [] []]; done. }
  unfold JsString.substring. simpl String.length.
  replace (Nat.min (Nat.min 2 (S (S (S (String.length ds)))))
                   (Nat.min 15 (S (S (S (String.length ds)))))) with 2%nat by lia.
  match goal with |- context [String.substring 2 ?k _] => generalize k end.
  intros k.
  change (JsString.all_chars JsString.is_base36 (String.substring 0 k (String d ds)) = true).
  by apply substring_all_chars.
Qed.

Lemma new_id_length (s : string) : (String.length (JsString.substring 2 15 s) ≤ 13)%nat.
Proof. apply (js_substring_length 2 15 s). lia. Qed.

Lemma base36_not_colon (c : ascii) :
  JsString.is_base36 c = true → negb (Ascii.eqb c ":") = true.
Proof. destruct (Ascii.eqb_spec c ":") as [->|]; [discriminate | done]. Qed.

Lemma new_id_colon_free (w : World) :
  JsString.radix36_fraction (random36 w) = true → colon_free (new_id w) = true.
Proof.
  intros H. unfold colon_free, new_id.
  eapply all_chars_impl; [apply base36_not_colon | by apply new_id_base36].
Qed.

Lemma colon_not_free (u rest : string) : colon_free (u +:+ String ":" rest) = false.
Proof.
  unfold colon_free. induction u as [|c u IH]; simpl; [done |].
  rewrite IH. apply andb_false_r.
Qed.

(** A user id and a colon-free id can be read back from their key. *)
Lemma colon_split (u1 u2 id1 id2 : string) :
  colon_free id1 = true → colon_free id2 = true →
  u1 +:+ ":" +:+ id1 = u2 +:+ ":" +:+ id2 → u1 = u2 ∧ id1 = id2.
Proof.
  intros H1 H2. revert u2. induction u1 as [|c u1 IH]; intros [|c' u2] H; cbn in H.
  - by injection H.
  - simplify_eq. by rewrite colon_not_free in H1.
  - simplify_eq. by rewrite colon_not_free in H2.
  - simplify_eq. by destruct (IH u2) as [-> ->].
Qed.

Lemma memoryKey_inj (u1 u2 id1 id2 : string) :
  colon_free id1 = true → colon_free id2 = true →
  Dragonfly.memoryKey u1 id1 = Dragonfly.memoryKey u2 id2 → u1 = u2 ∧ id1 = id2.
Proof.
  intros H1 H2 H. unfold Dragonfly.memoryKey in H.
  apply (colon_split u1 u2 id1 id2 H1 H2). simpl in *. by simplify_eq.
Qed.

Lemma indexKey_inj (u1 u2 : string) :
  Dragonfly.indexKey u1 = Dragonfly.indexKey u2 → u1 = u2.
Proof. unfold Dragonfly.indexKey. simpl. intros H. by simplify_eq. Qed.

(* ===================================================================== *)
(** * Sorting *)
(* ===================================================================== *)

Section SortFacts.
Context {A : Type} (key : A → Z).

#[local] Abbreviation cmp := (λ a b : A, key b - key a).
#[local] Abbreviation older := (λ a b : A, key b ≤ key a).
#[local] Abbreviation at_key t := (λ x : A, key x =? t).

Lemma js_insert_perm (x : A) (l : list A) : Permutation (x :: l) (js_insert cmp x l).
Proof.
  induction l as [|y l IH]; simpl; [done |].
  destruct (cmp x y <=? 0); [done |].
  rewrite perm_swap. by constructor.
Qed.

Lemma js_sort_perm (l : list A) : Permutation l (js_sort cmp l).
Proof.
  induction l as [|x l IH]; simpl; [done |].
  rewrite <- js_insert_perm. by constructor.
Qed.

Lemma js_insert_sorted (x : A) (l : list A) :
  StronglySorted older l → StronglySorted older (js_insert cmp x l).
Proof.
  induction 1 as [|y l Hl IH Hy]; simpl.
  - repeat constructor.
  - destruct (Z.leb_spec (cmp x y) 0) as [Hle|Hgt]; simpl in *.
    + constructor; [by constructor |].
      constructor; [lia |]. eapply Forall_impl; [exact Hy |]. simpl. intros z Hz. lia.
    + constructor; [done |].
      rewrite <- js_insert_perm. constructor; [lia | done].
Qed.

Lemma js_sort_sorted (l : list A) : StronglySorted older (js_sort cmp l).
Proof.
  induction l as [|x l IH]; simpl; [constructor | by apply js_insert_sorted].
Qed.




End SortFacts.

(* ===================================================================== *)
(** * Running the monad *)
(* ===================================================================== *)

Lemma fresh_ne (h : gmap loc (list Memory.t)) (a : loc) :
  is_Some (h !! a) → fresh (dom h) ≠ a.
Proof.
  intros Ha Heq. apply (is_fresh (dom h)). rewrite Heq. by apply elem_of_dom.
Qed.

Lemma same_stores_refl (st : Server) : same_stores st st.
Proof. by unfold same_stores. Qed.

Lemma same_stores_fallback (st st' : Server) :
  same_stores st st' → fallback st' = fallback st.
Proof. intros (Hm & _ & Hh). unfold fallback, elements_of. by rewrite Hm, Hh. Qed.

Lemma same_stores_wf (st st' : Server) : same_stores st st' → wf st → wf st'.
Proof. intros (Hm & _ & Hh). unfold wf. by rewrite Hm, Hh. Qed.

Lemma same_stores_view (u : string) (st st' : Server) :
  same_stores st st' → user_view u st' = user_view u st.
Proof.
  intros H. unfold user_view. rewrite (same_stores_fallback _ _ H).
  destruct H as (_ & -> & _). done.
Qed.

Lemma fallback_pushed (m : Memory.t) (st : Server) :
  fallback (pushed m st) = fallback st ++ [m].
Proof.
  unfold pushed, fallback at 1, elements_of, set_heap. cbn [heap memories].
  by rewrite lookup_insert_eq.
Qed.

Lemma pushed_wf (m : Memory.t) (st : Server) : wf (pushed m st).
Proof. unfold wf, pushed, set_heap. cbn [heap memories]. by rewrite lookup_insert_eq. Qed.

(** The fallback pipeline computes [rank] and touches only array
    objects of its own. *)
Lemma fallback_search_run `{RT : !JsRuntime} (query userId : string) (st : Server) :
  wf st →
  ∃ st', Dragonfly.fallback_search query userId st
         = (inr (to_hit <$> rank query (of_user userId (fallback st))), st') ∧
         same_stores st st'.
Proof.
  intros Hwf.
  unfold Dragonfly.fallback_search, this_memories, Array_filter, Array_sort, Array_slice,
    Array_map, Array_new, mbind, M_bind, elements_of, set_heap.
  cbn [heap memories redis].
  rewrite !lookup_insert_eq. cbn [default].
  eexists. split; [reflexivity |].
  unfold same_stores. cbn [heap memories redis]. split_and!; try done.
  unfold wf in Hwf.
  rewrite !lookup_insert_ne; [done | ..]; apply fresh_ne;
    rewrite ?lookup_insert_is_Some'; auto 10.
Qed.

Lemma schema_error_is_Zod (k1 k2 d : string) (args : jsval) (e : exn) :
  Zod.object2 k1 Zod.string_ k2 (Zod.string_default d) args = inl e →
  ∃ issues, e = ZodError issues.
Proof.
  unfold Zod.object2. intros H.
  destruct args; try (injection H as <-; by eexists).
  destruct (Zod.string_ _ _), (Zod.string_default _ _ _);
    try discriminate; injection H as <-; by eexists.
Qed.

Lemma addMemory_schema_spec (args : jsval) (c u : string) :
  addMemory_schema args = inr (c, u) ↔
  is_object args = true ∧ content_of args = JStr c ∧
  (userId_of args = JStr u ∨ (userId_of args = JUndefined ∧ u = "quinn_may")).
Proof.
  unfold addMemory_schema, Zod.object2.
  destruct args as [| | | | |?|members]; simpl; try (split; [done | by intros (? & ? & ?)]).
  destruct (member "content" members) eqn:Hc, (member "userId" members) eqn:Hu; simpl;
    (split; [intros H; simplify_eq; auto | intros (_ & ? & [?|[? ?]]); simplify_eq; done]).
Qed.

Lemma addMemory_schema_missing (args : jsval) :
  content_of args = JUndefined → ∃ issues, addMemory_schema args = inl (ZodError issues).
Proof.
  unfold addMemory_schema, Zod.object2.
  destruct args as [| | | | |?|members]; simpl; try by eexists.
  intros ->. simpl. destruct (Zod.string_default _ _ _); by eexists.
Qed.

(* ===================================================================== *)
(** * Running the tools *)
(* ===================================================================== *)

Lemma handler_returns {A : Type} (body : M A) (st st' : Server) (r : A) :
  body st = (inr r, st') → try_catch body rethrow_as_McpError st = (inr r, st').
Proof. unfold try_catch. by intros ->. Qed.

Lemma handler_wraps {A : Type} (body : M A) (st st' : Server) (e : exn) :
  body st = (inl e, st') → instanceof_McpError e = false →
  try_catch body rethrow_as_McpError st
  = (inl (McpError InternalError (ToolExecutionFailed e)), st').
Proof. unfold try_catch, rethrow_as_McpError, throw. by intros -> ->. Qed.

Lemma InMemory_addMemory_ok (w : World) (args : jsval) (st : Server) (c u : string) :
  addMemory_schema args = inr (c, u) →
  InMemory.addMemory w args st
  = (inr (text_result (added_text u (new_id w))), pushed (new_memory w c u) st).
Proof.
  intros H. unfold InMemory.addMemory, lift, mbind, M_bind. by rewrite H.
Qed.

Lemma InMemory_addMemory_err (w : World) (args : jsval) (st : Server) (e : exn) :
  addMemory_schema args = inl e → InMemory.addMemory w args st = (inl e, st).
Proof.
  intros H. unfold InMemory.addMemory, lift, mbind, M_bind. by rewrite H.
Qed.

Lemma Dragonfly_addMemory_ok (w : World) (args : jsval) (st : Server) (c u : string) :
  addMemory_schema args = inr (c, u) →
  Dragonfly.addMemory w args st
  = (inr (text_result (added_text u (new_id w))), added w (new_memory w c u) st).
Proof.
  intros H. unfold Dragonfly.addMemory, lift, mbind, M_bind, try_catch, added. rewrite H.
  unfold redis_set, redis_zadd. by destruct (set_ok w), (zadd_ok w).
Qed.

Lemma Dragonfly_addMemory_err (w : World) (args : jsval) (st : Server) (e : exn) :
  addMemory_schema args = inl e → Dragonfly.addMemory w args st = (inl e, st).
Proof.
  intros H. unfold Dragonfly.addMemory, lift, mbind, M_bind. by rewrite H.
Qed.

(** The search of the in-memory build is the fallback search of the other
    build. *)
Lemma InMemory_search_unfold `{RT : !JsRuntime} (args : jsval) (st : Server) :
  InMemory.searchMemories_results args st
  = match searchMemories_schema args with
    | inr (q, u) =>
        match Dragonfly.fallback_search q u st with
        | (inr results, st') => (inr (q, results), st')
        | (inl e, st') => (inl e, st')
        end
    | inl e => (inl e, st)
    end.
Proof.
  unfold InMemory.searchMemories_results, Dragonfly.fallback_search, lift.
  unfold mbind at 1. unfold M_bind at 1.
  by destruct (searchMemories_schema args) as [e|[q u]].
Qed.

Lemma InMemory_search_run `{RT : !JsRuntime} (args : jsval) (st : Server) (q u : string) :
  wf st → searchMemories_schema args = inr (q, u) →
  ∃ st', InMemory.searchMemories_results args st
         = (inr (q, to_hit <$> rank q (of_user u (fallback st))), st') ∧
         same_stores st st'.
Proof.
  intros Hwf H.
  destruct (fallback_search_run q u st Hwf) as (st' & Hrun & Hsame).
  exists st'. split; [| done].
  by rewrite InMemory_search_unfold, H, Hrun.
Qed.

Lemma InMemory_search_err `{RT : !JsRuntime} (args : jsval) (st : Server) (e : exn) :
  searchMemories_schema args = inl e → InMemory.searchMemories args st = (inl e, st).
Proof.
  intros H. unfold InMemory.searchMemories, InMemory.searchMemories_results, lift,
    mbind, M_bind. by rewrite H.
Qed.

Lemma collect_run `{RT : !JsRuntime} (w : World) (u q : string) (ids : list string)
    (i : nat) (acc : list Hit.t) (st : Server) :
  Dragonfly.collect w u q ids i acc st
  = (match collected w q
             ((λ mem, (mem, Redis.get (Dragonfly.memoryKey u mem) (redis st))) <$> ids)
             i acc with
     | Some hits => inr hits
     | None => inl RedisError
     end, st).
Proof.
  revert i acc. induction ids as [|mem ids IH]; intros i acc; [done |].
  cbn [Dragonfly.collect fmap list_fmap collected].
  unfold mbind, M_bind, redis_get. destruct (get_ok w i); [| done].
  destruct (Redis.get _ _) as [memory|]; [destruct (relevant _ _) |]; apply IH.
Qed.

Lemma Dragonfly_search_run `{RT : !JsRuntime} (w : World) (args : jsval) (st : Server)
    (q u : string) :
  wf st → searchMemories_schema args = inr (q, u) →
  ∃ st', Dragonfly.searchMemories_results w args st
         = (inr (q, search_of_view w q u (user_view u st)), st') ∧
         same_stores st st'.
Proof.
  intros Hwf H.
  destruct (fallback_search_run q u st Hwf) as (st' & Hrun & Hsame).
  unfold Dragonfly.searchMemories_results, lift.
  unfold mbind at 1. unfold M_bind at 1. rewrite H.
  unfold search_of_view, user_view, durable_view. cbn [fst snd].
  unfold mbind at 1. unfold M_bind at 1. unfold try_catch.
  unfold mbind at 1. unfold M_bind at 1. unfold redis_zrevrange.
  destruct (zrevrange_ok w).
  - unfold mbind at 1. unfold M_bind at 1. rewrite collect_run.
    destruct (collected _ _ _ _ _) as [hits|].
    + exists st. split; [reflexivity | apply same_stores_refl].
    + exists st'. rewrite Hrun. split; [reflexivity | done].
  - exists st'. rewrite Hrun. split; [reflexivity | done].
Qed.

Lemma Dragonfly_search_err `{RT : !JsRuntime} (w : World) (args : jsval) (st : Server)
    (e : exn) :
  searchMemories_schema args = inl e → Dragonfly.searchMemories w args st = (inl e, st).
Proof.
  intros H. unfold Dragonfly.searchMemories, Dragonfly.searchMemories_results, lift,
    mbind, M_bind. by rewrite H.
Qed.

Lemma zod_not_McpError (k1 k2 d : string) (args : jsval) (e : exn) :
  Zod.object2 k1 Zod.string_ k2 (Zod.string_default d) args = inl e →
  instanceof_McpError e = false.
Proof. intros H. by destruct (schema_error_is_Zod _ _ _ _ _ H) as [issues ->]. Qed.

(* ===================================================================== *)
(** * What one user can read *)
(* ===================================================================== *)

Lemma zrev_insert_elem (x y : string * Z) (l : list (string * Z)) :
  y ∈ Redis.zrev_insert x l → y = x ∨ y ∈ l.
Proof.
  induction l as [|z l IH]; simpl.
  - rewrite list_elem_of_singleton. auto.
  - destruct (Redis.zrev_before x z).
    + rewrite elem_of_cons. auto.
    + rewrite !elem_of_cons. intros [->|H]; [auto |]. destruct (IH H); auto.
Qed.

Lemma zrev_order_elem (y : string * Z) (l : list (string * Z)) :
  y ∈ foldr Redis.zrev_insert [] l → y ∈ l.
Proof.
  induction l as [|x l IH]; simpl; [done |].
  intros H. apply zrev_insert_elem in H as [->|H]; [left | right; auto].
Qed.

(** [ZREVRANGE] returns members of the sorted set it is asked about. *)
Lemma zrevrange_members (key mem : string) (start stop : nat) (r : Redis.t) :
  mem ∈ Redis.zrevrange key start stop r →
  ∃ zs score, Redis.zsets r !! key = Some zs ∧ zs !! mem = Some score.
Proof.
  unfold Redis.zrevrange. intros H.
  apply list_elem_of_fmap in H as ([mem' score] & -> & H).
  apply subseteq_take, subseteq_drop, zrev_order_elem, elem_of_map_to_list in H.
  destruct (Redis.zsets r !! key) as [zs|]; simpl in H; [by exists zs, score |].
  by rewrite lookup_empty in H.
Qed.

Lemma zrevrange_zadd_other (key key' mem : string) (score : Z) (start stop : nat)
    (r : Redis.t) :
  key ≠ key' →
  Redis.zrevrange key' start stop (Redis.zadd key score mem r)
  = Redis.zrevrange key' start stop r.
Proof.
  intros Hne. unfold Redis.zrevrange, Redis.zadd. cbn [Redis.zsets].
  by rewrite lookup_insert_ne.
Qed.

Lemma of_user_other (u : string) (m : Memory.t) (l : list Memory.t) :
  Memory.userId m ≠ u → of_user u (l ++ [m]) = of_user u l.
Proof.
  intros Hne. unfold of_user. rewrite List.filter_app. simpl.
  destruct (String.eqb_spec (Memory.userId m) u); [done | apply app_nil_r].
Qed.

(** Writing a record of another user leaves the view of the index owner
    alone, because the members of the index have no colon in them. *)
Lemma durable_view_set_other (u1 u2 id1 : string) (m : Memory.t) (r : Redis.t) :
  u1 ≠ u2 → ids_ok r → colon_free id1 = true →
  durable_view u2 (Redis.set (Dragonfly.memoryKey u1 id1) m r) = durable_view u2 r.
Proof.
  intros Hne Hids Hid. unfold durable_view. f_equal.
  apply Forall_fmap_ext_1, Forall_forall. intros mem Hmem. f_equal.
  change (Redis.zrevrange (Dragonfly.indexKey u2) 0 99
            (Redis.set (Dragonfly.memoryKey u1 id1) m r))
    with (Redis.zrevrange (Dragonfly.indexKey u2) 0 99 r) in Hmem.
  apply zrevrange_members in Hmem as (zs & score & Hzs & Hmem).
  unfold Redis.get, Redis.set. cbn [Redis.strings].
  apply lookup_insert_ne. intros Hkey.
  apply memoryKey_inj in Hkey as [? _]; [done | done |].
  by eapply Hids.
Qed.

Lemma durable_view_zadd_other (u1 u2 id1 : string) (score : Z) (r : Redis.t) :
  u1 ≠ u2 →
  durable_view u2 (Redis.zadd (Dragonfly.indexKey u1) score id1 r) = durable_view u2 r.
Proof.
  intros Hne. unfold durable_view.
  assert (Dragonfly.indexKey u1 ≠ Dragonfly.indexKey u2) as Hkey.
  { intros H. by apply indexKey_inj in H. }
  rewrite zrevrange_zadd_other by done.
  unfold Redis.zadd at 1. cbn [Redis.zsets]. rewrite lookup_insert_ne by done.
  done.
Qed.

Lemma ids_ok_set (key : string) (m : Memory.t) (r : Redis.t) :
  ids_ok r → ids_ok (Redis.set key m r).
Proof. done. Qed.

Lemma ids_ok_zadd (key mem : string) (score : Z) (r : Redis.t) :
  colon_free mem = true → ids_ok r → ids_ok (Redis.zadd key score mem r).
Proof.
  intros Hmem Hr key' zs mem' score'. unfold Redis.zadd. cbn [Redis.zsets].
  destruct (decide (key = key')) as [<-|Hne].
  - rewrite lookup_insert_eq. intros [= <-].
    destruct (decide (mem = mem')) as [<-|Hne]; [done |].
    rewrite lookup_insert_ne by done.
    destruct (Redis.zsets r !! key) as [zs|] eqn:Hzs; simpl.
    + by apply (Hr key zs).
    + by rewrite lookup_empty.
  - rewrite lookup_insert_ne by done. apply Hr.
Qed.

Lemma records_ok_set (m : Memory.t) (r : Redis.t) :
  colon_free (Memory.id m) = true → records_ok r →
  records_ok (Redis.set (Dragonfly.memoryKey (Memory.userId m) (Memory.id m)) m r).
Proof.
  intros Hm Hr key m'. unfold Redis.set. cbn [Redis.strings].
  destruct (decide (Dragonfly.memoryKey (Memory.userId m) (Memory.id m) = key)) as [<-|Hne].
  - rewrite lookup_insert_eq. by intros [= <-].
  - rewrite lookup_insert_ne by done. apply Hr.
Qed.

Lemma records_ok_zadd (key mem : string) (score : Z) (r : Redis.t) :
  records_ok r → records_ok (Redis.zadd key score mem r).
Proof. done. Qed.

(* ===================================================================== *)
(** * The ranking *)
(* ===================================================================== *)

Lemma relevant_matches `{RT : !JsRuntime} (query : string) (m : Memory.t) :
  relevant query (Memory.content m) = true ↔ matches query m.
Proof. apply includes_spec. Qed.







Lemma collected_all_ok `{RT : !JsRuntime} (w : World) (q : string)
    (found : list (string * option Memory.t)) (i : nat) (acc : list Hit.t) :
  (∀ j, get_ok w j = true) →
  collected w q found i acc
  = Some (acc ++ (to_hit <$>
                    List.filter (λ m, relevant q (Memory.content m)) (omap snd found))).
Proof.
  intros Hok. revert i acc.
  induction found as [|[mem [m|]] found IH]; intros i acc; simpl.
  - by rewrite app_nil_r.
  - rewrite Hok. destruct (relevant q (Memory.content m)); rewrite IH; [| done].
    simpl. by rewrite <- app_assoc.
  - rewrite Hok. apply IH.
Qed.

Lemma js_insert_to_hit (x : Memory.t) (l : list Memory.t) :
  js_insert hit_by_recency (to_hit x) (to_hit <$> l) = to_hit <$> js_insert by_recency x l.
Proof.
  induction l as [|y l IH]; [done |].
  rewrite fmap_cons. cbn [js_insert].
  change (hit_by_recency (to_hit x) (to_hit y)) with (by_recency x y).
  destruct (by_recency x y <=? 0); [done |]. rewrite fmap_cons. by rewrite IH.
Qed.

Lemma js_sort_to_hit (l : list Memory.t) :
  js_sort hit_by_recency (to_hit <$> l) = to_hit <$> js_sort by_recency l.
Proof.
  induction l as [|x l IH]; [done |].
  rewrite fmap_cons. cbn [js_sort]. by rewrite IH, js_insert_to_hit.
Qed.

Lemma js_slice_fmap {A B : Type} (f : A → B) (a b : nat) (l : list A) :
  js_slice a b (f <$> l) = f <$> js_slice a b l.
Proof. unfold js_slice. by rewrite fmap_take, fmap_drop. Qed.

Lemma omap_snd_tagged {A B : Type} (f : A → option B) (l : list A) :
  omap snd ((λ a, (a, f a)) <$> l) = omap f l.
Proof.
  induction l as [|a l IH]; [done |]. csimpl. by rewrite IH.
Qed.

Lemma view_found (u : string) (r : Redis.t) :
  omap snd (durable_view u r).2 = indexed_records u r.
Proof. unfold durable_view, indexed_records. cbn [snd]. apply omap_snd_tagged. Qed.

(** With every Redis command of the call going through, the Redis search
    ranks the indexed records the way the fallback search ranks the
    fallback sequence. *)
Lemma search_of_view_healthy `{RT : !JsRuntime} (w : World) (q u : string) (st : Server) :
  zrevrange_ok w = true → (∀ j, get_ok w j = true) →
  search_of_view w q u (user_view u st) = to_hit <$> rank q (indexed_records u (redis st)).
Proof.
  intros Hz Hg. unfold search_of_view, user_view. cbn [fst snd]. rewrite Hz.
  rewrite collected_all_ok by done. cbn [app].
  rewrite js_sort_to_hit, js_slice_fmap, view_found. done.
Qed.





(* ===================================================================== *)
(** * The add operation *)
(* ===================================================================== *)

Lemma record_written_holds (m : Memory.t) (r : Redis.t) :
  Redis.get (Dragonfly.memoryKey (Memory.userId m) (Memory.id m)) (record_written m r)
  = Some m.
Proof. unfold Redis.get, record_written, Redis.set. cbn. apply lookup_insert_eq. Qed.

Lemma index_written_holds (w : World) (m : Memory.t) (r : Redis.t) :
  Redis.get (Dragonfly.memoryKey (Memory.userId m) (Memory.id m))
    (index_written w m (record_written m r))
  = Some m.
Proof. apply record_written_holds. Qed.




(** C4 (as amended): the id of a new memory is a string of base-36 digits
    of at most 13 characters; it can be shorter than 11 characters, and
    empty. It is the id both builds store and report. *)
Theorem new_id_shape (w : World) (args : jsval) (c u : string) (st : Server) :
  JsString.radix36_fraction (random36 w) = true →
  addMemory_schema args = inr (c, u) →
  let m := new_memory w c u in
  (String.length (Memory.id m) ≤ 13)%nat ∧
  JsString.all_chars JsString.is_base36 (Memory.id m) = true ∧
  fallback (InMemory.addMemory w args st).2 = fallback st ++ [m] ∧
  (InMemory.addMemory w args st).1 = inr (text_result (added_text u (Memory.id m))) ∧
  (Dragonfly.addMemory w args st).1 = inr (text_result (added_text u (Memory.id m))).
Proof.
  intros Hw Hargs m. split_and!.
  - apply new_id_length.
  - by apply new_id_base36.
  - rewrite (InMemory_addMemory_ok w args st c u Hargs). apply fallback_pushed.
  - by rewrite (InMemory_addMemory_ok w args st c u Hargs).
  - by rewrite (Dragonfly_addMemory_ok w args st c u Hargs).
Qed.

Lemma new_id_shape_witness :
  JsString.radix36_fraction (random36 calm) = true ∧
  addMemory_schema (add_args "note" "u1") = inr ("note", "u1") ∧
  let m := new_memory calm "note" "u1" in
  (String.length (Memory.id m) ≤ 13)%nat ∧
  JsString.all_chars JsString.is_base36 (Memory.id m) = true ∧
  fallback (InMemory.addMemory calm (add_args "note" "u1") server0).2
  = fallback server0 ++ [m] ∧
  (InMemory.addMemory calm (add_args "note" "u1") server0).1
  = inr (text_result (added_text "u1" (Memory.id m))) ∧
  (Dragonfly.addMemory calm (add_args "note" "u1") server0).1
  = inr (text_result (added_text "u1" (Memory.id m))).
Proof.
  split; [reflexivity |]. split; [reflexivity |].
  apply (new_id_shape calm (add_args "note" "u1") "note" "u1" server0); reflexivity.
Defined.

(** C4 fails as stated: when [Math.random()] returns 0.5, which base 36
    prints as [0.i], the add operation makes a memory whose id is the one
    character [i]. *)
Lemma short_id :
  JsString.radix36_fraction (random36 index_down) = true ∧
  ∃ m, fallback (InMemory.addMemory index_down (add_args "note" "u1") server0).2 = [m] ∧
       Memory.id m = "i" ∧
       ¬ (11 ≤ String.length (Memory.id m))%nat.
Proof.
  split; [reflexivity |].
  exists (new_memory index_down "note" "u1"). split_and!.
  - vm_compute. reflexivity.
  - reflexivity.
  - vm_compute. lia.
Qed.

(** C5 (as amended): the add operation requires [content] to be a string
    and accepts every string, the empty one included: it succeeds exactly
    when the arguments are an object whose [content] is a string and whose
    [userId] is a string or absent, and the memory it then stores has that
    string as its content. *)
Theorem addMemory_accepts_strings (w : World) (args : jsval) (st : Server) :
  ((∃ r, (Dragonfly.addMemory w args st).1 = inr r) ↔
   is_object args = true ∧ (∃ c, content_of args = JStr c) ∧
   ((∃ u, userId_of args = JStr u) ∨ userId_of args = JUndefined)) ∧
  ((∃ r, (InMemory.addMemory w args st).1 = inr r) ↔
   is_object args = true ∧ (∃ c, content_of args = JStr c) ∧
   ((∃ u, userId_of args = JStr u) ∨ userId_of args = JUndefined)) ∧
  ∀ c, content_of args = JStr c →
       ∀ r, (Dragonfly.addMemory w args st).1 = inr r →
            ∃ m, Memory.content m = c ∧
                 (in_durable m (Dragonfly.addMemory w args st).2 ∨
                  fallback (Dragonfly.addMemory w args st).2 = fallback st ++ [m]).
Proof.
  assert (∀ c u, addMemory_schema args = inr (c, u) →
            is_object args = true ∧ (∃ c, content_of args = JStr c) ∧
            ((∃ u, userId_of args = JStr u) ∨ userId_of args = JUndefined)) as Hshape.
  { intros c u H. apply addMemory_schema_spec in H as (? & ? & [?|[? ?]]); eauto 6. }
  assert (is_object args = true ∧ (∃ c, content_of args = JStr c) ∧
          ((∃ u, userId_of args = JStr u) ∨ userId_of args = JUndefined) →
          ∃ c u, addMemory_schema args = inr (c, u)) as Hparse.
  { intros (Ho & [c Hc] & [[u Hu]|Hu]).
    - exists c, u. apply addMemory_schema_spec. auto.
    - exists c, "quinn_may". apply addMemory_schema_spec. auto. }
  split_and!.
  - split.
    + intros [r Hr]. destruct (addMemory_schema args) as [e|[c u]] eqn:Hs; [| eauto].
      by rewrite (Dragonfly_addMemory_err w args st e Hs) in Hr.
    + intros H. destruct (Hparse H) as (c & u & Hs).
      rewrite (Dragonfly_addMemory_ok w args st c u Hs). eauto.
  - split.
    + intros [r Hr]. destruct (addMemory_schema args) as [e|[c u]] eqn:Hs; [| eauto].
      by rewrite (InMemory_addMemory_err w args st e Hs) in Hr.
    + intros H. destruct (Hparse H) as (c & u & Hs).
      rewrite (InMemory_addMemory_ok w args st c u Hs). eauto.
  - intros c Hc r Hr.
    destruct (addMemory_schema args) as [e|[c' u]] eqn:Hs.
    { by rewrite (Dragonfly_addMemory_err w args st e Hs) in Hr. }
    pose proof Hs as Hs'. apply addMemory_schema_spec in Hs' as (_ & Hc' & _).
    assert (c' = c) as -> by congruence.
    exists (new_memory w c u). split; [done |].
    rewrite (Dragonfly_addMemory_ok w args st c u Hs). cbn [snd]. unfold added.
    destruct (set_ok w); [left | right; by rewrite fallback_pushed].
    destruct (zadd_ok w); [apply index_written_holds | apply record_written_holds].
Qed.

(** C5 fails as stated: the add operation accepts the empty string as
    content and stores a memory whose content is empty. *)
Lemma empty_content_accepted :
  let m := new_memory calm "" "u1" in
  let run := Dragonfly.addMemory calm (add_args "" "u1") server0 in
  run.1 = inr (text_result (added_text "u1" (Memory.id m))) ∧
  in_durable m run.2 ∧
  Memory.content m = "".
Proof. split_and!; [reflexivity | vm_compute; reflexivity | reflexivity]. Qed.

(* ===================================================================== *)
(** * The [tools/call] handler *)
(* ===================================================================== *)

Lemma strict_eq_search_not_add (v : jsval) :
  strict_eq v "search-memories" = true → strict_eq v "add-memory" = false.
Proof.
  destruct v as [| | | |s| |]; try done. simpl.
  destruct (String.eqb_spec s "search-memories") as [->|]; done.
Qed.

Lemma Dragonfly_call_add `{RT : !JsRuntime} (w : World) (params : CallToolParams)
    (st : Server) :
  strict_eq (name params) "add-memory" = true →
  Dragonfly.tools_call w params st
  = try_catch (Dragonfly.addMemory w (arguments params)) rethrow_as_McpError st.
Proof. intros H. unfold Dragonfly.tools_call. by rewrite H. Qed.

Lemma Dragonfly_call_search `{RT : !JsRuntime} (w : World) (params : CallToolParams)
    (st : Server) :
  strict_eq (name params) "search-memories" = true →
  Dragonfly.tools_call w params st
  = try_catch (Dragonfly.searchMemories w (arguments params)) rethrow_as_McpError st.
Proof.
  intros H. unfold Dragonfly.tools_call.
  by rewrite (strict_eq_search_not_add _ H), H.
Qed.

Lemma InMemory_call_add `{RT : !JsRuntime} (w : World) (params : CallToolParams)
    (st : Server) :
  strict_eq (name params) "add-memory" = true →
  InMemory.tools_call w params st
  = try_catch (InMemory.addMemory w (arguments params)) rethrow_as_McpError st.
Proof. intros H. unfold InMemory.tools_call. by rewrite H. Qed.

Lemma InMemory_call_search `{RT : !JsRuntime} (w : World) (params : CallToolParams)
    (st : Server) :
  strict_eq (name params) "search-memories" = true →
  InMemory.tools_call w params st
  = try_catch (InMemory.searchMemories (arguments params)) rethrow_as_McpError st.
Proof.
  intros H. unfold InMemory.tools_call.
  by rewrite (strict_eq_search_not_add _ H), H.
Qed.

Lemma call_unknown `{RT : !JsRuntime} (w : World) (params : CallToolParams) (st : Server) :
  strict_eq (name params) "add-memory" = false →
  strict_eq (name params) "search-memories" = false →
  Dragonfly.tools_call w params st
  = (inl (McpError MethodNotFound (UnknownTool (name params))), st) ∧
  InMemory.tools_call w params st
  = (inl (McpError MethodNotFound (UnknownTool (name params))), st).
Proof.
  intros H1 H2. unfold Dragonfly.tools_call, InMemory.tools_call. by rewrite H1, H2.
Qed.

(** C3 (as amended): a call of [add-memory] or [search-memories] whose
    arguments the schema rejects fails at the protocol boundary with an
    [McpError] of code [InternalError] that wraps the schema error; the
    server is left as it was. No validation category of its own crosses
    the boundary. *)
Theorem malformed_arguments_wrapped `{RT : !JsRuntime} (w : World)
    (params : CallToolParams) (cause : exn) (st : Server) :
  malformed params cause →
  (∃ issues, cause = ZodError issues) ∧
  Dragonfly.tools_call w params st
  = (inl (McpError InternalError (ToolExecutionFailed cause)), st) ∧
  InMemory.tools_call w params st
  = (inl (McpError InternalError (ToolExecutionFailed cause)), st) ∧
  is_validation_signal (McpError InternalError (ToolExecutionFailed cause)) = false.
Proof.
  intros [[Hname Hargs]|[Hname Hargs]].
  - pose proof (zod_not_McpError _ _ _ _ _ Hargs) as Hnot.
    split_and!; [by eapply schema_error_is_Zod | | | done].
    + rewrite Dragonfly_call_add by done.
      apply handler_wraps; [by apply Dragonfly_addMemory_err | done].
    + rewrite InMemory_call_add by done.
      apply handler_wraps; [by apply InMemory_addMemory_err | done].
  - pose proof (zod_not_McpError _ _ _ _ _ Hargs) as Hnot.
    split_and!; [by eapply schema_error_is_Zod | | | done].
    + rewrite Dragonfly_call_search by done.
      apply handler_wraps; [by apply Dragonfly_search_err | done].
    + rewrite InMemory_call_search by done.
      apply handler_wraps; [by apply InMemory_search_err | done].
Qed.

Lemma malformed_arguments_wrapped_witness :
  let cause := ZodError [ {| issue_path := ["query"]; issue_expected := "string" |} ] in
  let params := call "search-memories" (JObj [("query", JNum 7)]) in
  malformed params cause ∧
  (∃ issues, cause = ZodError issues) ∧
  Dragonfly.tools_call (RT := ascii_runtime) calm params server0
  = (inl (McpError InternalError (ToolExecutionFailed cause)), server0) ∧
  InMemory.tools_call (RT := ascii_runtime) calm params server0
  = (inl (McpError InternalError (ToolExecutionFailed cause)), server0) ∧
  is_validation_signal (McpError InternalError (ToolExecutionFailed cause)) = false.
Proof.
  split; [right; split; reflexivity |].
  apply (malformed_arguments_wrapped (RT := ascii_runtime)). right. split; reflexivity.
Defined.

(** C3 fails as stated: [add-memory] called without [content] fails with an
    [McpError] whose code is [InternalError], which is not a validation
    signal. *)
Lemma missing_content_is_InternalError :
  let params := call "add-memory" (JObj []) in
  let cause := ZodError [ {| issue_path := ["content"]; issue_expected := "string" |} ] in
  malformed params cause ∧
  (Dragonfly.tools_call (RT := ascii_runtime) calm params server0).1
  = inl (McpError InternalError (ToolExecutionFailed cause)) ∧
  is_validation_signal (McpError InternalError (ToolExecutionFailed cause)) = false.
Proof. split_and!; [left; split; reflexivity | reflexivity | reflexivity]. Qed.



(** C9: the add operation invoked without [content] fails, and neither
    the fallback sequence nor the durable store changes: the server after
    the call is the server before it. *)
Theorem addMemory_without_content `{RT : !JsRuntime} (w : World) (args : jsval)
    (st : Server) :
  content_of args = JUndefined →
  ∃ issues,
    Dragonfly.addMemory w args st = (inl (ZodError issues), st) ∧
    InMemory.addMemory w args st = (inl (ZodError issues), st) ∧
    Dragonfly.tools_call w {| name := JStr "add-memory"; arguments := args |} st
    = (inl (McpError InternalError (ToolExecutionFailed (ZodError issues))), st) ∧
    InMemory.tools_call w {| name := JStr "add-memory"; arguments := args |} st
    = (inl (McpError InternalError (ToolExecutionFailed (ZodError issues))), st).
Proof.
  intros Hc. destruct (addMemory_schema_missing args Hc) as [issues Hs].
  exists issues. split_and!.
  - by apply Dragonfly_addMemory_err.
  - by apply InMemory_addMemory_err.
  - rewrite Dragonfly_call_add by done.
    apply handler_wraps; [by apply Dragonfly_addMemory_err | done].
  - rewrite InMemory_call_add by done.
    apply handler_wraps; [by apply InMemory_addMemory_err | done].
Qed.

Lemma addMemory_without_content_witness :
  let args := JObj [("userId", JStr "u1")] in
  let st := pushed (new_memory calm "kept" "u1") server0 in
  content_of args = JUndefined ∧
  ∃ issues,
    Dragonfly.addMemory calm args st = (inl (ZodError issues), st) ∧
    InMemory.addMemory calm args st = (inl (ZodError issues), st) ∧
    Dragonfly.tools_call (RT := ascii_runtime) calm
      {| name := JStr "add-memory"; arguments := args |} st
    = (inl (McpError InternalError (ToolExecutionFailed (ZodError issues))), st) ∧
    InMemory.tools_call (RT := ascii_runtime) calm
      {| name := JStr "add-memory"; arguments := args |} st
    = (inl (McpError InternalError (ToolExecutionFailed (ZodError issues))), st).
Proof.
  split; [reflexivity |].
  apply (addMemory_without_content (RT := ascii_runtime)). reflexivity.
Defined.

(* ===================================================================== *)
(** * One call, and sequences of calls *)
(* ===================================================================== *)

Lemma Dragonfly_searchMemories_unfold `{RT : !JsRuntime} (w : World) (args : jsval)
    (st : Server) :
  Dragonfly.searchMemories w args st
  = match Dragonfly.searchMemories_results w args st with
    | (inr (q, results), st') => (inr (text_result (found_text q results)), st')
    | (inl e, st') => (inl e, st')
    end.
Proof.
  unfold Dragonfly.searchMemories, mbind, M_bind.
  by destruct (Dragonfly.searchMemories_results w args st) as [[e|[q r]] st'].
Qed.

Lemma InMemory_searchMemories_unfold `{RT : !JsRuntime} (args : jsval) (st : Server) :
  InMemory.searchMemories args st
  = match InMemory.searchMemories_results args st with
    | (inr (q, results), st') => (inr (text_result (found_text q results)), st')
    | (inl e, st') => (inl e, st')
    end.
Proof.
  unfold InMemory.searchMemories, mbind, M_bind.
  by destruct (InMemory.searchMemories_results args st) as [[e|[q r]] st'].
Qed.

Lemma Dragonfly_search_answer `{RT : !JsRuntime} (w : World) (args : jsval) (st : Server)
    (q u : string) :
  wf st → searchMemories_schema args = inr (q, u) →
  ∃ st', Dragonfly.searchMemories w args st
         = (inr (text_result (found_text q (search_of_view w q u (user_view u st)))), st') ∧
         same_stores st st'.
Proof.
  intros Hwf Hargs.
  destruct (Dragonfly_search_run w args st q u Hwf Hargs) as (st' & Hrun & Hsame).
  exists st'. by rewrite Dragonfly_searchMemories_unfold, Hrun.
Qed.

Lemma InMemory_search_answer `{RT : !JsRuntime} (args : jsval) (st : Server) (q u : string) :
  wf st → searchMemories_schema args = inr (q, u) →
  ∃ st', InMemory.searchMemories args st
         = (inr (text_result (found_text q (to_hit <$> rank q (of_user u (fallback st))))),
            st') ∧
         same_stores st st'.
Proof.
  intros Hwf Hargs.
  destruct (InMemory_search_run args st q u Hwf Hargs) as (st' & Hrun & Hsame).
  exists st'. by rewrite InMemory_searchMemories_unfold, Hrun.
Qed.

(** A call of the DragonflyDB build either leaves the stores alone or is
    an [add-memory] call that ran on valid arguments. *)
Lemma Dragonfly_step `{RT : !JsRuntime} (w : World) (params : CallToolParams) (st : Server) :
  wf st →
  same_stores st (Dragonfly.tools_call w params st).2 ∨
  ∃ c u, strict_eq (name params) "add-memory" = true ∧
         addMemory_schema (arguments params) = inr (c, u) ∧
         (Dragonfly.tools_call w params st).2 = added w (new_memory w c u) st.
Proof.
  intros Hwf.
  destruct (strict_eq (name params) "add-memory") eqn:Hadd.
  - rewrite Dragonfly_call_add by done.
    destruct (addMemory_schema (arguments params)) as [e|[c u]] eqn:Hs.
    + left. rewrite (handler_wraps _ _ _ _ (Dragonfly_addMemory_err w _ st e Hs)).
      * apply same_stores_refl.
      * by eapply zod_not_McpError.
    + right. exists c, u.
      by rewrite (handler_returns _ _ _ _ (Dragonfly_addMemory_ok w _ st c u Hs)).
  - left. destruct (strict_eq (name params) "search-memories") eqn:Hsearch.
    + rewrite Dragonfly_call_search by done.
      destruct (searchMemories_schema (arguments params)) as [e|[q u]] eqn:Hs.
      * rewrite (handler_wraps _ _ _ _ (Dragonfly_search_err w _ st e Hs)).
        -- apply same_stores_refl.
        -- by eapply zod_not_McpError.
      * destruct (Dragonfly_search_answer w _ st q u Hwf Hs) as (st' & Hrun & Hsame).
        by rewrite (handler_returns _ _ _ _ Hrun).
    + destruct (call_unknown w params st Hadd Hsearch) as [-> _]. apply same_stores_refl.
Qed.

Lemma InMemory_step `{RT : !JsRuntime} (w : World) (params : CallToolParams) (st : Server) :
  wf st →
  same_stores st (InMemory.tools_call w params st).2 ∨
  ∃ c u, strict_eq (name params) "add-memory" = true ∧
         addMemory_schema (arguments params) = inr (c, u) ∧
         (InMemory.tools_call w params st).2 = pushed (new_memory w c u) st.
Proof.
  intros Hwf.
  destruct (strict_eq (name params) "add-memory") eqn:Hadd.
  - rewrite InMemory_call_add by done.
    destruct (addMemory_schema (arguments params)) as [e|[c u]] eqn:Hs.
    + left. rewrite (handler_wraps _ _ _ _ (InMemory_addMemory_err w _ st e Hs)).
      * apply same_stores_refl.
      * by eapply zod_not_McpError.
    + right. exists c, u.
      by rewrite (handler_returns _ _ _ _ (InMemory_addMemory_ok w _ st c u Hs)).
  - left. destruct (strict_eq (name params) "search-memories") eqn:Hsearch.
    + rewrite InMemory_call_search by done.
      destruct (searchMemories_schema (arguments params)) as [e|[q u]] eqn:Hs.
      * rewrite (handler_wraps _ _ _ _ (InMemory_search_err _ st e Hs)).
        -- apply same_stores_refl.
        -- by eapply zod_not_McpError.
      * destruct (InMemory_search_answer _ st q u Hwf Hs) as (st' & Hrun & Hsame).
        by rewrite (handler_returns _ _ _ _ Hrun).
    + destruct (call_unknown w params st Hadd Hsearch) as [_ ->]. apply same_stores_refl.
Qed.

Lemma added_wf (w : World) (m : Memory.t) (st : Server) : wf st → wf (added w m st).
Proof.
  intros Hwf. unfold added.
  destruct (set_ok w); [destruct (zadd_ok w) |]; [done | apply pushed_wf | apply pushed_wf].
Qed.

Lemma added_fallback (w : World) (m : Memory.t) (st : Server) :
  fallback (added w m st) = fallback st ∨ fallback (added w m st) = fallback st ++ [m].
Proof.
  unfold added. destruct (set_ok w); [destruct (zadd_ok w) |].
  - by left.
  - right. by rewrite fallback_pushed.
  - right. by rewrite fallback_pushed.
Qed.

Lemma Dragonfly_step_fallback `{RT : !JsRuntime} (w : World) (params : CallToolParams)
    (st : Server) :
  wf st →
  wf (Dragonfly.tools_call w params st).2 ∧
  (fallback (Dragonfly.tools_call w params st).2 = fallback st ∨
   ∃ m, fallback (Dragonfly.tools_call w params st).2 = fallback st ++ [m]).
Proof.
  intros Hwf. destruct (Dragonfly_step w params st Hwf) as [Hsame|(c & u & _ & _ & ->)].
  - split; [by eapply same_stores_wf | left; by apply same_stores_fallback].
  - split; [by apply added_wf |].
    destruct (added_fallback w (new_memory w c u) st); eauto.
Qed.

Lemma InMemory_step_fallback `{RT : !JsRuntime} (w : World) (params : CallToolParams)
    (st : Server) :
  wf st →
  wf (InMemory.tools_call w params st).2 ∧
  (fallback (InMemory.tools_call w params st).2 = fallback st ∨
   ∃ m, fallback (InMemory.tools_call w params st).2 = fallback st ++ [m]).
Proof.
  intros Hwf. destruct (InMemory_step w params st Hwf) as [Hsame|(c & u & _ & _ & ->)].
  - split; [by eapply same_stores_wf | left; by apply same_stores_fallback].
  - split; [apply pushed_wf | right; eexists; apply fallback_pushed].
Qed.

Lemma Dragonfly_serve_prefix `{RT : !JsRuntime} (calls : list (World * CallToolParams))
    (st : Server) :
  wf st → fallback st `prefix_of` fallback (Dragonfly_serve calls st).
Proof.
  revert st. induction calls as [|[w params] calls IH]; intros st Hwf; [done |].
  simpl. destruct (Dragonfly_step_fallback w params st Hwf) as [Hwf' Hstep].
  etransitivity; [| by apply IH].
  destruct Hstep as [->|[m ->]]; [done | by apply prefix_app_r].
Qed.

Lemma InMemory_serve_prefix `{RT : !JsRuntime} (calls : list (World * CallToolParams))
    (st : Server) :
  wf st → fallback st `prefix_of` fallback (InMemory_serve calls st).
Proof.
  revert st. induction calls as [|[w params] calls IH]; intros st Hwf; [done |].
  simpl. destruct (InMemory_step_fallback w params st Hwf) as [Hwf' Hstep].
  etransitivity; [| by apply IH].
  destruct Hstep as [->|[m ->]]; [done | by apply prefix_app_r].
Qed.

(** C10: the fallback sequence only grows, and only at its end. A tool call
    of either build leaves it unchanged or appends one record to it; a
    [search-memories] call leaves it unchanged (the [sort] of the search
    works on an array of its own); after any sequence of calls the
    sequence before them is a prefix of the sequence after them. *)
Theorem fallback_append_only `{RT : !JsRuntime} (w : World) (params : CallToolParams)
    (calls : list (World * CallToolParams)) (st : Server) :
  wf st →
  let d := (Dragonfly.tools_call w params st).2 in
  let i := (InMemory.tools_call w params st).2 in
  (fallback d = fallback st ∨ ∃ m, fallback d = fallback st ++ [m]) ∧
  (fallback i = fallback st ∨ ∃ m, fallback i = fallback st ++ [m]) ∧
  (strict_eq (name params) "search-memories" = true →
   fallback d = fallback st ∧ fallback i = fallback st) ∧
  fallback st `prefix_of` fallback (Dragonfly_serve calls st) ∧
  fallback st `prefix_of` fallback (InMemory_serve calls st).
Proof.
  intros Hwf d i. split_and!.
  - apply (Dragonfly_step_fallback w params st Hwf).
  - apply (InMemory_step_fallback w params st Hwf).
  - intros Hsearch. pose proof (strict_eq_search_not_add _ Hsearch) as Hadd. split.
    + destruct (Dragonfly_step w params st Hwf) as [Hsame|(c & u & Hadd' & _)].
      * by apply same_stores_fallback.
      * congruence.
    + destruct (InMemory_step w params st Hwf) as [Hsame|(c & u & Hadd' & _)].
      * by apply same_stores_fallback.
      * congruence.
  - by apply Dragonfly_serve_prefix.
  - by apply InMemory_serve_prefix.
Qed.

Lemma fallback_append_only_witness :
  let st := pushed (new_memory calm "Hello World" "u1") server0 in
  let params := call "search-memories" (search_args "hello" "u1") in
  let calls := [(outage, call "add-memory" (add_args "again" "u1")); (outage, params)] in
  wf st ∧
  let d := (Dragonfly.tools_call (RT := ascii_runtime) outage params st).2 in
  let i := (InMemory.tools_call (RT := ascii_runtime) outage params st).2 in
  (fallback d = fallback st ∨ ∃ m, fallback d = fallback st ++ [m]) ∧
  (fallback i = fallback st ∨ ∃ m, fallback i = fallback st ++ [m]) ∧
  (strict_eq (name params) "search-memories" = true →
   fallback d = fallback st ∧ fallback i = fallback st) ∧
  fallback st `prefix_of` fallback (Dragonfly_serve (RT := ascii_runtime) calls st) ∧
  fallback st `prefix_of` fallback (InMemory_serve (RT := ascii_runtime) calls st).
Proof.
  split; [apply pushed_wf |].
  apply (fallback_append_only (RT := ascii_runtime)). apply pushed_wf.
Defined.

(* ===================================================================== *)
(** * Isolation of users *)
(* ===================================================================== *)

Lemma added_inv (w : World) (m : Memory.t) (st : Server) :
  colon_free (Memory.id m) = true → inv st → inv (added w m st).
Proof.
  intros Hid (Hwf & Hids & Hrec). split; [by apply added_wf |].
  unfold added, index_written, record_written.
  destruct (set_ok w); [destruct (zadd_ok w) |]; cbn [redis pushed set_heap set_redis].
  - split.
    + apply ids_ok_zadd; [done |]. by apply ids_ok_set.
    + apply records_ok_zadd. by apply records_ok_set.
  - split; [by apply ids_ok_set | by apply records_ok_set].
  - done.
Qed.

Lemma added_view_other (w : World) (m : Memory.t) (u : string) (st : Server) :
  colon_free (Memory.id m) = true → Memory.userId m ≠ u → inv st →
  user_view u (added w m st) = user_view u st.
Proof.
  intros Hid Hne (Hwf & Hids & Hrec). unfold user_view, added.
  destruct (set_ok w); [destruct (zadd_ok w) |].
  - cbn [redis set_redis]. unfold index_written, record_written.
    rewrite durable_view_zadd_other by done.
    rewrite durable_view_set_other by done. done.
  - rewrite fallback_pushed. cbn [redis pushed set_heap set_redis].
    unfold record_written. rewrite durable_view_set_other by done.
    rewrite of_user_other by done. done.
  - rewrite fallback_pushed. cbn [redis pushed set_heap set_redis].
    rewrite of_user_other by done. done.
Qed.

Lemma same_stores_inv (st st' : Server) : same_stores st st' → inv st → inv st'.
Proof.
  intros Hsame (Hwf & Hids & Hrec). split; [by eapply same_stores_wf |].
  destruct Hsame as (_ & -> & _). done.
Qed.

Lemma Dragonfly_step_inv `{RT : !JsRuntime} (w : World) (params : CallToolParams)
    (st : Server) :
  JsString.radix36_fraction (random36 w) = true → inv st →
  inv (Dragonfly.tools_call w params st).2.
Proof.
  intros Hw Hinv. destruct (Dragonfly_step w params st (proj1 Hinv))
    as [Hsame|(c & u & _ & _ & ->)].
  - by eapply same_stores_inv.
  - apply added_inv; [by apply new_id_colon_free | done].
Qed.

Lemma other_user_adds (u2 c u : string) (params : CallToolParams) :
  by_other_user u2 params →
  strict_eq (name params) "add-memory" = true →
  addMemory_schema (arguments params) = inr (c, u) → u ≠ u2.
Proof.
  intros (c' & u' & Hne & [[_ Hs]|[Hsearch _]]) Hadd Hargs.
  - congruence.
  - rewrite (strict_eq_search_not_add _ Hsearch) in Hadd. done.
Qed.

Lemma Dragonfly_step_view `{RT : !JsRuntime} (w : World) (params : CallToolParams)
    (u2 : string) (st : Server) :
  JsString.radix36_fraction (random36 w) = true → inv st → by_other_user u2 params →
  user_view u2 (Dragonfly.tools_call w params st).2 = user_view u2 st.
Proof.
  intros Hw Hinv Hother. destruct (Dragonfly_step w params st (proj1 Hinv))
    as [Hsame|(c & u & Hadd & Hargs & ->)].
  - by apply same_stores_view.
  - apply added_view_other; [by apply new_id_colon_free | | done].
    by eapply other_user_adds.
Qed.

Lemma InMemory_step_view `{RT : !JsRuntime} (w : World) (params : CallToolParams)
    (u2 : string) (st : Server) :
  wf st → by_other_user u2 params →
  of_user u2 (fallback (InMemory.tools_call w params st).2) = of_user u2 (fallback st).
Proof.
  intros Hwf Hother. destruct (InMemory_step w params st Hwf)
    as [Hsame|(c & u & Hadd & Hargs & ->)].
  - by rewrite (same_stores_fallback _ _ Hsame).
  - rewrite fallback_pushed. apply of_user_other. by eapply other_user_adds.
Qed.

Lemma Dragonfly_serve_view `{RT : !JsRuntime} (calls : list (World * CallToolParams))
    (u2 : string) (st : Server) :
  inv st → Forall (legal_call_of_other u2) calls →
  inv (Dragonfly_serve calls st) ∧
  user_view u2 (Dragonfly_serve calls st) = user_view u2 st.
Proof.
  intros Hinv Hcalls. revert st Hinv.
  induction Hcalls as [|[w params] calls [Hw Hother] _ IH]; intros st Hinv; [done |].
  simpl in *. destruct (IH _ (Dragonfly_step_inv w params st Hw Hinv)) as [Hinv' ->].
  split; [done | by apply Dragonfly_step_view].
Qed.

Lemma InMemory_serve_view `{RT : !JsRuntime} (calls : list (World * CallToolParams))
    (u2 : string) (st : Server) :
  wf st → Forall (legal_call_of_other u2) calls →
  wf (InMemory_serve calls st) ∧
  of_user u2 (fallback (InMemory_serve calls st)) = of_user u2 (fallback st).
Proof.
  intros Hwf Hcalls. revert st Hwf.
  induction Hcalls as [|[w params] calls [Hw Hother] _ IH]; intros st Hwf; [done |].
  simpl in *.
  destruct (IH _ (proj1 (InMemory_step_fallback w params st Hwf))) as [Hwf' ->].
  split; [done | by apply InMemory_step_view].
Qed.

(** The records a user can read are records of that user. *)
Lemma view_records_of_user (u : string) (st : Server) (mem : string) (m : Memory.t) :
  inv st →
  (m ∈ (user_view u st).1 ∨ (mem, Some m) ∈ (user_view u st).2.2) →
  Memory.userId m = u.
Proof.
  intros (_ & Hids & Hrec) [Hm|Hm]; unfold user_view, durable_view in Hm; cbn [fst snd] in Hm.
  - unfold of_user in Hm. apply list_elem_of_In, filter_In in Hm as [_ Hm].
    by apply String.eqb_eq in Hm.
  - apply list_elem_of_fmap in Hm as (mem' & [= <- Hget] & Hmem).
    apply zrevrange_members in Hmem as (zs & score & Hzs & Hmem).
    symmetry in Hget. apply Hrec in Hget as [Hkey Hid].
    apply memoryKey_inj in Hkey as [-> _]; [done | by eapply Hids | done].
Qed.

Lemma Dragonfly_serve_inv `{RT : !JsRuntime} (calls : list (World * CallToolParams))
    (st : Server) :
  inv st → Forall (λ c, JsString.radix36_fraction (random36 c.1) = true) calls →
  inv (Dragonfly_serve calls st).
Proof.
  intros Hinv Hcalls. revert st Hinv.
  induction Hcalls as [|[w params] calls Hw _ IH]; intros st Hinv; [done |].
  simpl. apply IH. by apply Dragonfly_step_inv.
Qed.

Lemma new_server_inv : inv server0.
Proof.
  split_and!.
  - unfold wf, server0, new_server. cbn. by rewrite lookup_singleton_eq.
  - intros key zs mem score H. unfold server0, new_server, Redis.empty in H.
    cbn [redis Redis.zsets] in H. by rewrite lookup_empty in H.
  - intros key m H. unfold server0, new_server, Redis.empty in H.
    cbn [redis Redis.strings] in H. by rewrite lookup_empty in H.
Qed.

(** C7: searches of one user are isolated from the other users. Calls made
    on behalf of other users, however many, leave the answer to a search of
    [u2] as it was, in both builds; the answer is a function of what is
    stored for [u2] (two servers that agree on it answer alike); and every
    record stored for [u2] has [u2] as its [userId]. *)
Theorem cross_user_isolation `{RT : !JsRuntime} (calls : list (World * CallToolParams))
    (st st2 : Server) (u2 q : string) (w : World) (sargs : jsval) :
  inv st → inv st2 →
  Forall (legal_call_of_other u2) calls →
  searchMemories_schema sargs = inr (q, u2) →
  (Dragonfly.searchMemories w sargs (Dragonfly_serve calls st)).1
  = (Dragonfly.searchMemories w sargs st).1 ∧
  (InMemory.searchMemories sargs (InMemory_serve calls st)).1
  = (InMemory.searchMemories sargs st).1 ∧
  (user_view u2 st = user_view u2 st2 →
   (Dragonfly.searchMemories w sargs st).1 = (Dragonfly.searchMemories w sargs st2).1 ∧
   (InMemory.searchMemories sargs st).1 = (InMemory.searchMemories sargs st2).1) ∧
  (∀ mem m, m ∈ (user_view u2 st).1 ∨ (mem, Some m) ∈ (user_view u2 st).2.2 →
            Memory.userId m = u2).
Proof.
  intros Hinv Hinv2 Hcalls Hargs.
  assert (∀ s, wf s →
            (Dragonfly.searchMemories w sargs s).1
            = inr (text_result (found_text q (search_of_view w q u2 (user_view u2 s)))))
    as Hd.
  { intros s Hs. by destruct (Dragonfly_search_answer w sargs s q u2 Hs Hargs) as (? & -> & _). }
  assert (∀ s, wf s →
            (InMemory.searchMemories sargs s).1
            = inr (text_result (found_text q (to_hit <$> rank q (of_user u2 (fallback s))))))
    as Hi.
  { intros s Hs. by destruct (InMemory_search_answer sargs s q u2 Hs Hargs) as (? & -> & _). }
  destruct (Dragonfly_serve_view calls u2 st Hinv Hcalls) as [Hinv' Hview].
  destruct (InMemory_serve_view calls u2 st (proj1 Hinv) Hcalls) as [Hwf' Hfb].
  split_and!.
  - rewrite (Hd _ (proj1 Hinv')), (Hd _ (proj1 Hinv)). by rewrite Hview.
  - rewrite (Hi _ Hwf'), (Hi _ (proj1 Hinv)). by rewrite Hfb.
  - intros Heq. rewrite !Hd, !Hi by apply Hinv || apply Hinv2. rewrite Heq.
    split; [done |]. unfold user_view in Heq. by injection Heq as -> _.
  - intros mem m. by apply view_records_of_user.
Qed.

Lemma cross_user_isolation_witness :
  let calls := [(calm, call "add-memory" (add_args "a secret" "u1"));
                (outage, call "add-memory" (add_args "another secret" "u1"))] in
  let st := pushed (new_memory calm "my secret" "u2") server0 in
  let sargs := search_args "secret" "u2" in
  inv st ∧ inv st ∧ Forall (legal_call_of_other "u2") calls ∧
  searchMemories_schema sargs = inr ("secret", "u2") ∧
  (Dragonfly.searchMemories (RT := ascii_runtime) outage sargs
     (Dragonfly_serve (RT := ascii_runtime) calls st)).1
  = (Dragonfly.searchMemories (RT := ascii_runtime) outage sargs st).1 ∧
  (InMemory.searchMemories (RT := ascii_runtime) sargs
     (InMemory_serve (RT := ascii_runtime) calls st)).1
  = (InMemory.searchMemories (RT := ascii_runtime) sargs st).1 ∧
  (user_view "u2" st = user_view "u2" st →
   (Dragonfly.searchMemories (RT := ascii_runtime) outage sargs st).1
   = (Dragonfly.searchMemories (RT := ascii_runtime) outage sargs st).1 ∧
   (InMemory.searchMemories (RT := ascii_runtime) sargs st).1
   = (InMemory.searchMemories (RT := ascii_runtime) sargs st).1) ∧
  (∀ mem m, m ∈ (user_view "u2" st).1 ∨ (mem, Some m) ∈ (user_view "u2" st).2.2 →
            Memory.userId m = "u2").
Proof.
  intros calls st sargs.
  assert (inv st) as Hinv.
  { split; [apply pushed_wf | apply new_server_inv]. }
  assert (Forall (legal_call_of_other "u2") calls) as Hcalls.
  { constructor; [| constructor; [| constructor]].
    - split; [reflexivity |]. exists "a secret", "u1".
      split; [discriminate | left; split; reflexivity].
    - split; [reflexivity |]. exists "another secret", "u1".
      split; [discriminate | left; split; reflexivity]. }
  split; [done |]. split; [done |]. split; [done |]. split; [reflexivity |].
  apply (cross_user_isolation (RT := ascii_runtime) calls st st "u2" "secret" outage sargs);
    [done | done | done | reflexivity].
Defined.

(* ===================================================================== *)
(** * The model at work *)
(* ===================================================================== *)

Example toISOString_epoch : JsDate.toISOString 0 = "1970-01-01T00:00:00.000Z".
Proof. reflexivity. Qed.

Example toISOString_leap_day :
  JsDate.toISOString 1709251199999 = "2024-02-29T23:59:59.999Z".
Proof. reflexivity. Qed.

Example toISOString_before_epoch : JsDate.toISOString (-1) = "1969-12-31T23:59:59.999Z".
Proof. reflexivity. Qed.

Example toISOString_last_instant :
  JsDate.toISOString 8640000000000000 = "+275760-09-13T00:00:00.000Z".
Proof. reflexivity. Qed.

Example substring_cuts_at_15 :
  JsString.substring 2 15 "0.0123456789abcdefg" = "0123456789abc".
Proof. reflexivity. Qed.

Example substring_of_zero : JsString.substring 2 15 "0" = "".
Proof. reflexivity. Qed.

Example includes_is_substring :
  JsString.includes "hello world" "lo w" = true ∧ JsString.includes "hello" "hex" = false.
Proof. split; reflexivity. Qed.

(** Ties keep their order, the more recent come first. *)
Example js_sort_keeps_ties :
  Memory.content <$>
    js_sort by_recency
      [Memory.make "1" "a" "u" 5; Memory.make "2" "b" "u" 7;
       Memory.make "3" "c" "u" 5; Memory.make "4" "d" "u" 7]
  = ["b"; "d"; "a"; "c"].
Proof. reflexivity. Qed.

Example zrevrange_order :
  Redis.zrevrange "k" 0 99
    (Redis.zadd "k" 3 "x" (Redis.zadd "k" 9 "b" (Redis.zadd "k" 9 "a" Redis.empty)))
  = ["b"; "a"; "x"].
Proof. vm_compute. reflexivity. Qed.

(** [record("Hello World", "u1")] then [search("hello", "u1")] returns one
    result, in the Redis branch and in the fallback branch. *)
Example search_is_case_insensitive :
  let hit := to_hit (new_memory calm "Hello World" "u1") in
  let text := "Found 1 memories for query " +:+ dquote +:+ "hello" +:+ dquote +:+ ":" +:+
              newline +:+ newline +:+ "1. [2023-11-14T22:13:20.000Z] Hello World" in
  let healthy := (Dragonfly.tools_call (RT := ascii_runtime) calm
                    (call "add-memory" (add_args "Hello World" "u1")) server0).2 in
  let degraded := (Dragonfly.tools_call (RT := ascii_runtime) outage
                     (call "add-memory" (add_args "Hello World" "u1")) server0).2 in
  (Dragonfly.tools_call (RT := ascii_runtime) calm
     (call "search-memories" (search_args "hello" "u1")) healthy).1
  = inr (text_result text) ∧
  (Dragonfly.searchMemories_results (RT := ascii_runtime) outage
     (search_args "hello" "u1") degraded).1
  = inr ("hello", [ {| Hit.id := "k2j9x0q1c7"; Hit.content := "Hello World";
                       Hit.timestamp := 1700000001000 |} ]).
Proof. split; vm_compute; reflexivity. Qed.

(** Of 15 matching memories of one user the search returns the 10 most
    recent. *)
Example ten_most_recent_of_fifteen :
  let st := foldl (λ st t, pushed (Memory.make "m" "a note" "u1" t) st) server0
                  (Z.of_nat <$> seq 1 15) in
  match (InMemory.searchMemories_results (RT := ascii_runtime)
           (search_args "NOTE" "u1") st).1 with
  | inr (_, results) => Hit.timestamp <$> results = [15; 14; 13; 12; 11; 10; 9; 8; 7; 6]
  | inl _ => False
  end.
Proof. vm_compute. reflexivity. Qed.

(** An unknown tool name fails with [MethodNotFound], which the handler
    passes on as it is. *)
Example unknown_tool :
  (Dragonfly.tools_call (RT := ascii_runtime) calm (call "forget" JUndefined) server0).1
  = inl (McpError MethodNotFound (UnknownTool (JStr "forget"))).
Proof. reflexivity. Qed.

(* ===================================================================== *)
(** * The bearer-token hook *)
(* ===================================================================== *)

Lemma substring_whole (s : string) : String.substring 0 (String.length s) s = s.
Proof. induction s as [|c s IH]; [done |]. simpl. by rewrite IH. Qed.

Lemma substring_from_Bearer (t : string) : Http.substring_from 7 ("Bearer " +:+ t) = t.
Proof.
  unfold Http.substring_from, JsString.substring.
  change (String.length ("Bearer " +:+ t)) with (7 + String.length t)%nat.
  replace (Nat.min (Nat.min 7 (7 + String.length t))
                   (Nat.min (7 + String.length t) (7 + String.length t))) with 7%nat by lia.
  replace (Nat.max (Nat.min 7 (7 + String.length t))
                   (Nat.min (7 + String.length t) (7 + String.length t)) - 7)%nat
    with (String.length t) by lia.
  change (String.substring 7 (String.length t) ("Bearer " +:+ t))
    with (String.substring 0 (String.length t) t).
  apply substring_whole.
Qed.

Lemma or_default_nonempty (value : option string) (fallback : string) :
  fallback ≠ "" → Http.or_default value fallback ≠ "".
Proof. intros H. by destruct value as [[|c s]|]. Qed.

(** What the hook does with a header that has the [Bearer ] prefix. *)
Lemma preHandler_Bearer (env : option string) (request : Http.Request) (t : string) :
  Http.url request ≠ "/health" →
  Http.authorization request = Some ("Bearer " +:+ t) →
  Http.preHandler env request
  = if String.eqb t (Http.or_default env "default-token-change-me")
    then Http.Continue
    else Http.Send 401 (JObj [("error", JStr "Invalid bearer token")]).
Proof.
  intros Hurl Hauth. unfold Http.preHandler. rewrite Hauth.
  destruct (String.eqb_spec (Http.url request) "/health"); [done |].
  change (("Bearer " +:+ t =? "")%string) with false.
  replace (JsString.startsWith "Bearer " ("Bearer " +:+ t)) with true
    by (symmetry; apply startsWith_spec; by exists t).
  cbn [orb negb]. rewrite substring_from_Bearer.
  by destruct (String.eqb t _).
Qed.

(** What the hook does with a header that lacks the prefix. *)
Lemma preHandler_no_Bearer (env : option string) (request : Http.Request) :
  Http.url request ≠ "/health" →
  (∀ t, Http.authorization request ≠ Some ("Bearer " +:+ t)) →
  Http.preHandler env request
  = Http.Send 401 (JObj [("error", JStr "Bearer token required")]).
Proof.
  intros Hurl Hauth. unfold Http.preHandler.
  destruct (String.eqb_spec (Http.url request) "/health"); [done |].
  destruct (Http.authorization request) as [h|]; [| done].
  destruct (String.eqb h ""); [done |]. cbn [orb].
  destruct (JsString.startsWith "Bearer " h) eqn:Hs; [| done].
  apply startsWith_spec in Hs as [t ->]. by destruct (Hauth t).
Qed.

Lemma Bearer_cases (h : option string) :
  (∃ t, h = Some ("Bearer " +:+ t)) ∨ (∀ t, h ≠ Some ("Bearer " +:+ t)).
Proof.
  destruct h as [h|]; [| by right].
  destruct (JsString.startsWith "Bearer " h) eqn:Hs.
  - apply startsWith_spec in Hs as [t ->]. left. by exists t.
  - right. intros t Heq.
    rewrite (proj2 (startsWith_spec "Bearer " h)) in Hs; [done |].
    exists t. by injection Heq.
Qed.

(** X1: the hook lets a request through in exactly two cases: its URL is
    [/health], or its [Authorization] header is [Bearer ] followed by the
    valid token, which is [MCP_BEARER_TOKEN] when that is set and not
    empty, and [default-token-change-me] otherwise. *)
Theorem preHandler_passes (env : option string) (request : Http.Request) :
  Http.preHandler env request = Http.Continue ↔
  Http.url request = "/health" ∨
  Http.authorization request
  = Some ("Bearer " +:+ Http.or_default env "default-token-change-me").
Proof.
  destruct (String.eqb_spec (Http.url request) "/health") as [Hurl|Hurl].
  { split; [auto |]. intros _. unfold Http.preHandler. by rewrite Hurl. }
  split.
  - intros Hpass. right.
    destruct (Bearer_cases (Http.authorization request)) as [[t Ht]|Hno].
    + rewrite (preHandler_Bearer env request t Hurl Ht) in Hpass.
      destruct (String.eqb_spec t (Http.or_default env "default-token-change-me"));
        [by subst | done].
    + by rewrite (preHandler_no_Bearer env request Hurl Hno) in Hpass.
  - intros [Hu|Hauth]; [done |].
    rewrite (preHandler_Bearer env request _ Hurl Hauth). by rewrite String.eqb_refl.
Qed.

(** X2: when the hook answers itself the status is 401 and the URL is not
    [/health]; the message is [Bearer token required] when the header is
    missing or lacks the prefix [Bearer ], and [Invalid bearer token] when
    the prefix is there and the token is wrong. A header [Bearer ] with
    nothing after it is refused whatever the environment says. *)
Theorem preHandler_rejections (env : option string) (request : Http.Request)
    (code : nat) (payload : jsval) :
  Http.preHandler env request = Http.Send code payload →
  code = 401%nat ∧ Http.url request ≠ "/health" ∧
  ((payload = JObj [("error", JStr "Bearer token required")] ∧
    ∀ t, Http.authorization request ≠ Some ("Bearer " +:+ t)) ∨
   (payload = JObj [("error", JStr "Invalid bearer token")] ∧
    ∃ t, Http.authorization request = Some ("Bearer " +:+ t) ∧
         t ≠ Http.or_default env "default-token-change-me")) ∧
  Http.preHandler env
    {| Http.url := Http.url request; Http.authorization := Some "Bearer ";
       Http.mcp_session_id := Http.mcp_session_id request; Http.body := Http.body request |}
  = Http.Send 401 (JObj [("error", JStr "Invalid bearer token")]).
Proof.
  intros Hsend.
  assert (Http.url request ≠ "/health") as Hurl.
  { intros Hu. unfold Http.preHandler in Hsend. by rewrite Hu in Hsend. }
  pose proof Bearer_cases as Hcases.
  split_and!; [| done | |].
  - destruct (Hcases (Http.authorization request)) as [[t Ht]|Hno].
    + rewrite (preHandler_Bearer env request t Hurl Ht) in Hsend.
      destruct (String.eqb t _); [done | by injection Hsend].
    + rewrite (preHandler_no_Bearer env request Hurl Hno) in Hsend. by injection Hsend.
  - destruct (Hcases (Http.authorization request)) as [[t Ht]|Hno].
    + right. rewrite (preHandler_Bearer env request t Hurl Ht) in Hsend.
      destruct (String.eqb_spec t (Http.or_default env "default-token-change-me"));
        [done |].
      split; [by injection Hsend | by exists t].
    + left. rewrite (preHandler_no_Bearer env request Hurl Hno) in Hsend.
      split; [by injection Hsend | done].
  - match goal with |- Http.preHandler env ?r = _ =>
      rewrite (preHandler_Bearer env r "" Hurl eq_refl) end.
    destruct (String.eqb_spec "" (Http.or_default env "default-token-change-me"))
      as [Hempty|]; [| done].
    symmetry in Hempty. by apply or_default_nonempty in Hempty.
Qed.

Lemma preHandler_rejections_witness :
  let request := {| Http.url := "/mcp"; Http.authorization := Some "Bearer guess";
                    Http.mcp_session_id := None; Http.body := JNull |} in
  let payload := JObj [("error", JStr "Invalid bearer token")] in
  Http.preHandler (Some "s3cret") request = Http.Send 401 payload ∧
  401%nat = 401%nat ∧ Http.url request ≠ "/health" ∧
  ((payload = JObj [("error", JStr "Bearer token required")] ∧
    ∀ t, Http.authorization request ≠ Some ("Bearer " +:+ t)) ∨
   (payload = JObj [("error", JStr "Invalid bearer token")] ∧
    ∃ t, Http.authorization request = Some ("Bearer " +:+ t) ∧
         t ≠ Http.or_default (Some "s3cret") "default-token-change-me")) ∧
  Http.preHandler (Some "s3cret")
    {| Http.url := Http.url request; Http.authorization := Some "Bearer ";
       Http.mcp_session_id := Http.mcp_session_id request; Http.body := Http.body request |}
  = Http.Send 401 (JObj [("error", JStr "Invalid bearer token")]).
Proof.
  split; [reflexivity |].
  apply (preHandler_rejections (Some "s3cret")
           {| Http.url := "/mcp"; Http.authorization := Some "Bearer guess";
              Http.mcp_session_id := None; Http.body := JNull |} 401
           (JObj [("error", JStr "Invalid bearer token")])).
  reflexivity.
Defined.

(* ===================================================================== *)
(** * The routes *)
(* ===================================================================== *)


(** X4: [GET /health] of the DragonflyDB build never throws and leaves the
    server as it is; it says [healthy] whatever the ping does, [connected]
    exactly when the ping came back, and [in-memory] as fallback exactly
    when the ping threw. *)
Theorem health_reports (ping_ok : bool) (now : Z) (st : Server) :
  ∃ h, Http.health ping_ok now st = (inr h, st) ∧
       Http.health_status h = "healthy" ∧
       Http.health_timestamp h = JsDate.toISOString now ∧
       (Http.dragonfly h = "connected" ↔ ping_ok = true) ∧
       (Http.dragonfly h = "unavailable" ↔ ping_ok = false) ∧
       (Http.health_fallback h = "in-memory" ↔ ping_ok = false) ∧
       (Http.health_fallback h = "not needed" ↔ ping_ok = true).
Proof. destruct ping_ok; eexists; (split; [reflexivity |]); cbn; split_and!; done. Qed.

(* ===================================================================== *)
(** * Which calls succeed *)
(* ===================================================================== *)

Lemma fallback_search_total `{RT : !JsRuntime} (q u : string) (st : Server) :
  ∃ results st', Dragonfly.fallback_search q u st = (inr results, st').
Proof. by eexists _, _. Qed.

Lemma Dragonfly_results_total `{RT : !JsRuntime} (w : World) (args : jsval) (st : Server)
    (q u : string) :
  searchMemories_schema args = inr (q, u) →
  ∃ results st', Dragonfly.searchMemories_results w args st = (inr (q, results), st').
Proof.
  intros H. destruct (fallback_search_total q u st) as (rf & stf & Hf).
  unfold Dragonfly.searchMemories_results, lift.
  unfold mbind at 1. unfold M_bind at 1. rewrite H.
  unfold mbind at 1. unfold M_bind at 1. unfold try_catch.
  unfold mbind at 1. unfold M_bind at 1. unfold redis_zrevrange.
  destruct (zrevrange_ok w).
  - unfold mbind at 1. unfold M_bind at 1. rewrite collect_run.
    destruct (collected _ _ _ _ _) as [hits|].
    + by eexists _, _.
    + rewrite Hf. by eexists _, _.
  - rewrite Hf. by eexists _, _.
Qed.

Lemma Dragonfly_search_total `{RT : !JsRuntime} (w : World) (args : jsval) (st : Server)
    (q u : string) :
  searchMemories_schema args = inr (q, u) →
  ∃ results st', Dragonfly.searchMemories w args st
                 = (inr (text_result (found_text q results)), st').
Proof.
  intros H. destruct (Dragonfly_results_total w args st q u H) as (r & st' & Hr).
  exists r, st'. by rewrite Dragonfly_searchMemories_unfold, Hr.
Qed.

Lemma InMemory_search_total `{RT : !JsRuntime} (args : jsval) (st : Server) (q u : string) :
  searchMemories_schema args = inr (q, u) →
  ∃ results st', InMemory.searchMemories args st
                 = (inr (text_result (found_text q results)), st').
Proof.
  intros H. destruct (fallback_search_total q u st) as (r & st' & Hr).
  exists r, st'. by rewrite InMemory_searchMemories_unfold, InMemory_search_unfold, H, Hr.
Qed.

(** The three ways a call of the DragonflyDB build can end. *)
Lemma Dragonfly_call_outcome `{RT : !JsRuntime} (w : World) (params : CallToolParams)
    (st : Server) :
  (∃ r st', Dragonfly.tools_call w params st = (inr r, st') ∧
     ((strict_eq (name params) "add-memory" = true ∧
       ∃ c u, addMemory_schema (arguments params) = inr (c, u)) ∨
      (strict_eq (name params) "search-memories" = true ∧
       ∃ q u, searchMemories_schema (arguments params) = inr (q, u)))) ∨
  (∃ cause, malformed params cause ∧
     Dragonfly.tools_call w params st
     = (inl (McpError InternalError (ToolExecutionFailed cause)), st)) ∨
  (strict_eq (name params) "add-memory" = false ∧
   strict_eq (name params) "search-memories" = false ∧
   Dragonfly.tools_call w params st
   = (inl (McpError MethodNotFound (UnknownTool (name params))), st)).
Proof.
  destruct (strict_eq (name params) "add-memory") eqn:Hadd.
  - destruct (addMemory_schema (arguments params)) as [e|[c u]] eqn:Hs.
    + right. left. exists e. split; [by left |].
      rewrite Dragonfly_call_add by done.
      apply handler_wraps; [by apply Dragonfly_addMemory_err | by eapply zod_not_McpError].
    + left. eexists _, _. split; [| left; eauto].
      rewrite Dragonfly_call_add by done.
      apply handler_returns. by apply Dragonfly_addMemory_ok.
  - destruct (strict_eq (name params) "search-memories") eqn:Hsearch.
    + destruct (searchMemories_schema (arguments params)) as [e|[q u]] eqn:Hs.
      * right. left. exists e. split; [by right |].
        rewrite Dragonfly_call_search by done.
        apply handler_wraps; [by apply Dragonfly_search_err | by eapply zod_not_McpError].
      * left. destruct (Dragonfly_search_total w _ st q u Hs) as (r & st' & Hr).
        eexists _, st'. split; [| right; eauto].
        rewrite Dragonfly_call_search by done. by apply handler_returns.
    + right. right. split_and!; [done | done |]. by apply call_unknown.
Qed.

Lemma InMemory_call_outcome `{RT : !JsRuntime} (w : World) (params : CallToolParams)
    (st : Server) :
  (∃ r st', InMemory.tools_call w params st = (inr r, st') ∧
     ((strict_eq (name params) "add-memory" = true ∧
       ∃ c u, addMemory_schema (arguments params) = inr (c, u)) ∨
      (strict_eq (name params) "search-memories" = true ∧
       ∃ q u, searchMemories_schema (arguments params) = inr (q, u)))) ∨
  (∃ cause, malformed params cause ∧
     InMemory.tools_call w params st
     = (inl (McpError InternalError (ToolExecutionFailed cause)), st)) ∨
  (strict_eq (name params) "add-memory" = false ∧
   strict_eq (name params) "search-memories" = false ∧
   InMemory.tools_call w params st
   = (inl (McpError MethodNotFound (UnknownTool (name params))), st)).
Proof.
  destruct (strict_eq (name params) "add-memory") eqn:Hadd.
  - destruct (addMemory_schema (arguments params)) as [e|[c u]] eqn:Hs.
    + right. left. exists e. split; [by left |].
      rewrite InMemory_call_add by done.
      apply handler_wraps; [by apply InMemory_addMemory_err | by eapply zod_not_McpError].
    + left. eexists _, _. split; [| left; eauto].
      rewrite InMemory_call_add by done.
      apply handler_returns. by apply InMemory_addMemory_ok.
  - destruct (strict_eq (name params) "search-memories") eqn:Hsearch.
    + destruct (searchMemories_schema (arguments params)) as [e|[q u]] eqn:Hs.
      * right. left. exists e. split; [by right |].
        rewrite InMemory_call_search by done.
        apply handler_wraps; [by apply InMemory_search_err | by eapply zod_not_McpError].
      * left. destruct (InMemory_search_total _ st q u Hs) as (r & st' & Hr).
        eexists _, st'. split; [| right; eauto].
        rewrite InMemory_call_search by done. by apply handler_returns.
    + right. right. split_and!; [done | done |]. by apply call_unknown.
Qed.

Lemma malformed_not_accepted (params : CallToolParams) (cause : exn) :
  malformed params cause →
  ¬ ((strict_eq (name params) "add-memory" = true ∧
      ∃ c u, addMemory_schema (arguments params) = inr (c, u)) ∨
     (strict_eq (name params) "search-memories" = true ∧
      ∃ q u, searchMemories_schema (arguments params) = inr (q, u))).
Proof.
  intros [[Hn Hs]|[Hn Hs]] [[Hn' (c & u & Hs')]|[Hn' (c & u & Hs')]]; try congruence.
  - rewrite (strict_eq_search_not_add _ Hn') in Hn. done.
  - rewrite (strict_eq_search_not_add _ Hn) in Hn'. done.
Qed.

(** X5: a call succeeds exactly when it names one of the two tools and its
    arguments pass the schema of that tool, in both builds and whatever the
    Redis commands of the call do: no Redis failure makes a call fail, in
    [search-memories] as little as in [add-memory]. *)
Theorem call_succeeds_iff `{RT : !JsRuntime} (w : World) (params : CallToolParams)
    (st : Server) :
  let accepted :=
    (strict_eq (name params) "add-memory" = true ∧
     ∃ c u, addMemory_schema (arguments params) = inr (c, u)) ∨
    (strict_eq (name params) "search-memories" = true ∧
     ∃ q u, searchMemories_schema (arguments params) = inr (q, u)) in
  ((∃ r, (Dragonfly.tools_call w params st).1 = inr r) ↔ accepted) ∧
  ((∃ r, (InMemory.tools_call w params st).1 = inr r) ↔ accepted).
Proof.
  intros accepted. split.
  - destruct (Dragonfly_call_outcome w params st)
      as [(r & st' & -> & Hacc)|[(cause & Hmal & ->)|(Hadd & Hsearch & ->)]].
    + split; [done | eauto].
    + split; [by intros [r Hr] |]. intros Hacc. by destruct (malformed_not_accepted _ _ Hmal).
    + split; [by intros [r Hr] |]. intros [[? _]|[? _]]; congruence.
  - destruct (InMemory_call_outcome w params st)
      as [(r & st' & -> & Hacc)|[(cause & Hmal & ->)|(Hadd & Hsearch & ->)]].
    + split; [done | eauto].
    + split; [by intros [r Hr] |]. intros Hacc. by destruct (malformed_not_accepted _ _ Hmal).
    + split; [by intros [r Hr] |]. intros [[? _]|[? _]]; congruence.
Qed.

(** X6: a call that fails has changed nothing, neither the fallback
    sequence nor the Redis server nor any other field of the server, and
    what it throws is an [McpError] whose code is [MethodNotFound] or
    [InternalError]; a schema error or a Redis error never leaves the
    handler as such. *)
Theorem failed_call_changes_nothing `{RT : !JsRuntime} (w : World)
    (params : CallToolParams) (st : Server) (e : exn) :
  (Dragonfly.tools_call w params st).1 = inl e ∨
  (InMemory.tools_call w params st).1 = inl e →
  ((Dragonfly.tools_call w params st).1 = inl e →
   (Dragonfly.tools_call w params st).2 = st) ∧
  ((InMemory.tools_call w params st).1 = inl e →
   (InMemory.tools_call w params st).2 = st) ∧
  ∃ code message, e = McpError code message ∧
                  (code = MethodNotFound ∨ code = InternalError).
Proof.
  intros Hfail. split_and!.
  - destruct (Dragonfly_call_outcome w params st)
      as [(r & st' & -> & _)|[(cause & _ & ->)|(_ & _ & ->)]]; done.
  - destruct (InMemory_call_outcome w params st)
      as [(r & st' & -> & _)|[(cause & _ & ->)|(_ & _ & ->)]]; done.
  - destruct Hfail as [Hfail|Hfail].
    + destruct (Dragonfly_call_outcome w params st)
        as [(r & st' & Hr & _)|[(cause & _ & Hr)|(_ & _ & Hr)]];
        rewrite Hr in Hfail; [done | |]; injection Hfail as <-; eauto.
    + destruct (InMemory_call_outcome w params st)
        as [(r & st' & Hr & _)|[(cause & _ & Hr)|(_ & _ & Hr)]];
        rewrite Hr in Hfail; [done | |]; injection Hfail as <-; eauto.
Qed.

Lemma failed_call_changes_nothing_witness :
  let params := call "search-memories" (JObj [("userId", JStr "u1")]) in
  let st := pushed (new_memory calm "kept" "u1") server0 in
  let e := McpError InternalError
             (ToolExecutionFailed
                (ZodError [ {| issue_path := ["query"]; issue_expected := "string" |} ])) in
  ((Dragonfly.tools_call (RT := ascii_runtime) outage params st).1 = inl e ∨
   (InMemory.tools_call (RT := ascii_runtime) outage params st).1 = inl e) ∧
  ((Dragonfly.tools_call (RT := ascii_runtime) outage params st).1 = inl e →
   (Dragonfly.tools_call (RT := ascii_runtime) outage params st).2 = st) ∧
  ((InMemory.tools_call (RT := ascii_runtime) outage params st).1 = inl e →
   (InMemory.tools_call (RT := ascii_runtime) outage params st).2 = st) ∧
  ∃ code message, e = McpError code message ∧
                  (code = MethodNotFound ∨ code = InternalError).
Proof.
  split; [left; reflexivity |].
  apply (failed_call_changes_nothing (RT := ascii_runtime)). left. reflexivity.
Defined.

(* ===================================================================== *)
(** * The listed tools and the dispatched ones *)
(* ===================================================================== *)

Lemma object2_spec (k1 d : string) (args : jsval) (a u : string) :
  Zod.object2 k1 Zod.string_ "userId" (Zod.string_default d) args = inr (a, u) ↔
  ∃ members, args = JObj members ∧ member k1 members = JStr a ∧
             (member "userId" members = JStr u ∨
              (member "userId" members = JUndefined ∧ u = d)).
Proof.
  unfold Zod.object2. split.
  - destruct args as [| | | | |?|members]; simpl; try done.
    destruct (member k1 members) eqn:Hc, (member "userId" members) eqn:Hu; simpl;
      intros H; simplify_eq; eauto 7.
  - intros (members & -> & Hc & Hu). simpl. rewrite Hc.
    by destruct Hu as [->|[-> ->]].
Qed.

Lemma admits_spec (k1 d1 d2 : string) (args : jsval) :
  ToolsList.admits
    {| ToolsList.schema_type := "object";
       ToolsList.properties :=
         [(k1, {| ToolsList.type := "string"; ToolsList.description := d1;
                  ToolsList.default := None |});
          ("userId", {| ToolsList.type := "string"; ToolsList.description := d2;
                        ToolsList.default := Some "quinn_may" |})];
       ToolsList.required := [k1] |} args = true ↔
  ∃ a u, Zod.object2 k1 Zod.string_ "userId" (Zod.string_default "quinn_may") args
         = inr (a, u).
Proof.
  split.
  - destruct args as [| | | | |?|members]; try done.
    unfold ToolsList.admits. cbn [ToolsList.schema_type ToolsList.properties
      ToolsList.required ToolsList.has_type forallb fst snd ToolsList.type].
    intros H.
    destruct (member k1 members) as [| | | |a| |] eqn:Hc; try done.
    destruct (member "userId" members) as [| | | |u| |] eqn:Hu; try done.
    + exists a, "quinn_may". apply object2_spec. eauto 7.
    + exists a, u. apply object2_spec. eauto 7.
  - intros (a & u & H). apply object2_spec in H as (members & -> & Hc & Hu).
    unfold ToolsList.admits. cbn [ToolsList.schema_type ToolsList.properties
      ToolsList.required ToolsList.has_type forallb fst snd ToolsList.type].
    rewrite Hc. by destruct Hu as [->|[-> _]].
Qed.

(** X7: the input schema each listed tool advertises admits exactly the
    arguments the parser of that tool accepts, and the default it
    advertises for [userId] is the one the parser fills in when [userId]
    is absent. *)
Theorem inputSchema_agrees_with_parser (t : ToolsList.tool) (args : jsval) :
  t ∈ ToolsList.tools →
  (ToolsList.admits (ToolsList.inputSchema t) args = true ↔
   (ToolsList.name t = "add-memory" ∧ ∃ c u, addMemory_schema args = inr (c, u)) ∨
   (ToolsList.name t = "search-memories" ∧
    ∃ q u, searchMemories_schema args = inr (q, u))) ∧
  (∀ p a u,
     ("userId", p) ∈ ToolsList.properties (ToolsList.inputSchema t) →
     userId_of args = JUndefined →
     addMemory_schema args = inr (a, u) ∨ searchMemories_schema args = inr (a, u) →
     ToolsList.default p = Some u).
Proof.
  intros Ht. unfold ToolsList.tools in Ht.
  apply elem_of_cons in Ht as [->|Ht];
    [| apply elem_of_cons in Ht as [->|Ht]; [| by apply elem_of_nil in Ht]].
  - split.
    + cbn [ToolsList.inputSchema ToolsList.name]. rewrite admits_spec.
      split; [by left | by intros [[_ ?]|[? _]]].
    + intros p a u Hp Hu Hs. cbn [ToolsList.inputSchema ToolsList.properties] in Hp.
      apply elem_of_cons in Hp as [Hp|Hp]; [done |].
      apply list_elem_of_singleton in Hp. injection Hp as ->. cbn.
      destruct Hs as [Hs|Hs]; apply object2_spec in Hs as (members & -> & _ & Hcase);
        simpl in Hu; destruct Hcase as [Hcase|[_ ->]]; congruence.
  - split.
    + cbn [ToolsList.inputSchema ToolsList.name]. rewrite admits_spec.
      split; [by right | by intros [[? _]|[_ ?]]].
    + intros p a u Hp Hu Hs. cbn [ToolsList.inputSchema ToolsList.properties] in Hp.
      apply elem_of_cons in Hp as [Hp|Hp]; [done |].
      apply list_elem_of_singleton in Hp. injection Hp as ->. cbn.
      destruct Hs as [Hs|Hs]; apply object2_spec in Hs as (members & -> & _ & Hcase);
        simpl in Hu; destruct Hcase as [Hcase|[_ ->]]; congruence.
Qed.

Lemma inputSchema_agrees_with_parser_witness :
  let t := {| ToolsList.name := "add-memory";
              ToolsList.tool_description := "Add a new memory for a user";
              ToolsList.inputSchema :=
                {| ToolsList.schema_type := "object";
                   ToolsList.properties :=
                     [("content",
                       {| ToolsList.type := "string";
                          ToolsList.description := "The content to store in memory";
                          ToolsList.default := None |});
                      ("userId",
                       {| ToolsList.type := "string";
                          ToolsList.description :=
                            "User ID for memory storage. Defaults to 'quinn_may' if not provided.";
                          ToolsList.default := Some "quinn_may" |})];
                   ToolsList.required := ["content"] |} |} in
  let args := JObj [("content", JStr "note")] in
  t ∈ ToolsList.tools ∧
  (ToolsList.admits (ToolsList.inputSchema t) args = true ↔
   (ToolsList.name t = "add-memory" ∧ ∃ c u, addMemory_schema args = inr (c, u)) ∨
   (ToolsList.name t = "search-memories" ∧
    ∃ q u, searchMemories_schema args = inr (q, u))) ∧
  (∀ p a u,
     ("userId", p) ∈ ToolsList.properties (ToolsList.inputSchema t) →
     userId_of args = JUndefined →
     addMemory_schema args = inr (a, u) ∨ searchMemories_schema args = inr (a, u) →
     ToolsList.default p = Some u).
Proof.
  intros t args. split; [left |].
  apply (inputSchema_agrees_with_parser t args). left.
Defined.

Lemma listed_names (v : jsval) :
  (∃ t, t ∈ ToolsList.tools ∧ v = JStr (ToolsList.name t)) ↔
  strict_eq v "add-memory" = true ∨ strict_eq v "search-memories" = true.
Proof.
  split.
  - intros (t & Ht & ->). unfold ToolsList.tools in Ht.
    apply elem_of_cons in Ht as [->|Ht]; [by left |].
    apply list_elem_of_singleton in Ht as ->. by right.
  - assert (∃ t1 t2, ToolsList.tools = [t1; t2] ∧ ToolsList.name t1 = "add-memory" ∧
                     ToolsList.name t2 = "search-memories") as (t1 & t2 & Htools & Hn1 & Hn2)
      by (eexists _, _; split_and!; reflexivity).
    rewrite Htools.
    intros [H|H]; destruct v as [| | | |s| |]; try done; simpl in H;
      apply String.eqb_eq in H as ->.
    + exists t1. split; [left | by rewrite Hn1].
    + exists t2. split; [right; left | by rewrite Hn2].
Qed.

(** X8: the handler of [tools/call] answers [MethodNotFound] exactly for
    the names that [tools/list] does not list (a name that is not a string
    among them), and then the server is as before; for a listed name it
    never does. *)
Theorem unlisted_tools_are_not_found `{RT : !JsRuntime} (w : World)
    (params : CallToolParams) (st : Server) :
  let not_found := inl (McpError MethodNotFound (UnknownTool (name params))) in
  ((∃ t, t ∈ ToolsList.tools ∧ name params = JStr (ToolsList.name t)) ↔
   (Dragonfly.tools_call w params st).1 ≠ not_found) ∧
  ((∃ t, t ∈ ToolsList.tools ∧ name params = JStr (ToolsList.name t)) ↔
   (InMemory.tools_call w params st).1 ≠ not_found) ∧
  ((Dragonfly.tools_call w params st).1 = not_found →
   (Dragonfly.tools_call w params st).2 = st) ∧
  ((InMemory.tools_call w params st).1 = not_found →
   (InMemory.tools_call w params st).2 = st).
Proof.
  intros not_found. subst not_found. rewrite listed_names. split_and!.
  - destruct (Dragonfly_call_outcome w params st)
      as [(r & st' & -> & Hacc)|[(cause & Hmal & ->)|(Hadd & Hsearch & ->)]].
    + split; [done |]. intros _. destruct Hacc as [[? _]|[? _]]; auto.
    + split; [done |]. intros _. destruct Hmal as [[? _]|[? _]]; auto.
    + split; [intros [?|?]; congruence | done].
  - destruct (InMemory_call_outcome w params st)
      as [(r & st' & -> & Hacc)|[(cause & Hmal & ->)|(Hadd & Hsearch & ->)]].
    + split; [done |]. intros _. destruct Hacc as [[? _]|[? _]]; auto.
    + split; [done |]. intros _. destruct Hmal as [[? _]|[? _]]; auto.
    + split; [intros [?|?]; congruence | done].
  - destruct (Dragonfly_call_outcome w params st)
      as [(r & st' & -> & _)|[(cause & _ & ->)|(_ & _ & ->)]]; done.
  - destruct (InMemory_call_outcome w params st)
      as [(r & st' & -> & _)|[(cause & _ & ->)|(_ & _ & ->)]]; done.
Qed.

(* ===================================================================== *)
(** * What a search returns, whatever Redis does *)
(* ===================================================================== *)

Lemma take_StronglySorted {A : Type} (R : A → A → Prop) (n : nat) (l : list A) :
  StronglySorted R l → StronglySorted R (take n l).
Proof.
  intros H. revert n. induction H as [|x l Hl IH Hx]; intros [|n]; simpl; try constructor.
  - apply IH.
  - apply Forall_forall. intros y Hy. rewrite Forall_forall in Hx.
    apply Hx. by apply (subseteq_take n l).
Qed.

Lemma js_slice_head {A : Type} (n : nat) (l : list A) : js_slice 0 n l = take n l.
Proof. unfold js_slice. by rewrite Nat.sub_0_r. Qed.

Lemma search_of_view_shape `{RT : !JsRuntime} (w : World) (q u : string)
    (view : list Memory.t * (option (gmap string Z) * list (string * option Memory.t))) :
  (∃ hits, collected w q view.2.2 0 [] = Some hits ∧
           search_of_view w q u view = take 10 (js_sort hit_by_recency hits)) ∨
  search_of_view w q u view = to_hit <$> rank q view.1.
Proof.
  unfold search_of_view. destruct (zrevrange_ok w); [| by right].
  destruct (collected w q view.2.2 0 []) as [hits|]; [| by right].
  left. exists hits. by rewrite js_slice_head.
Qed.

Lemma collected_from `{RT : !JsRuntime} (w : World) (q : string)
    (found : list (string * option Memory.t)) (i : nat) (acc hits : list Hit.t) :
  collected w q found i acc = Some hits →
  ∀ h, h ∈ hits →
       h ∈ acc ∨
       ∃ mem m, (mem, Some m) ∈ found ∧ relevant q (Memory.content m) = true ∧
                h = to_hit m.
Proof.
  revert i acc. induction found as [|[mem [m|]] found IH]; intros i acc; simpl.
  - intros [= <-] h Hh. by left.
  - destruct (get_ok w i); [| done].
    destruct (relevant q (Memory.content m)) eqn:Hrel; intros Hc h Hh;
      destruct (IH _ _ Hc h Hh) as [Hacc|(mem' & m' & Hin & Hr & ->)].
    + apply elem_of_app in Hacc as [Hacc|Hacc]; [by left |].
      apply list_elem_of_singleton in Hacc as ->.
      right. exists mem, m. split_and!; [left | done | done].
    + right. exists mem', m'. split_and!; [by right | done | done].
    + by left.
    + right. exists mem', m'. split_and!; [by right | done | done].
  - destruct (get_ok w i); [| done]. intros Hc h Hh.
    destruct (IH _ _ Hc h Hh) as [Hacc|(mem' & m' & Hin & Hr & ->)]; [by left |].
    right. exists mem', m'. split_and!; [by right | done | done].
Qed.

Lemma rank_elem `{RT : !JsRuntime} (q : string) (candidates : list Memory.t) (m : Memory.t) :
  m ∈ rank q candidates → m ∈ candidates ∧ relevant q (Memory.content m) = true.
Proof.
  unfold rank. rewrite js_slice_head. intros H. apply subseteq_take in H.
  rewrite <- (js_sort_perm Memory.timestamp) in H.
  apply list_elem_of_In, filter_In in H as [H ?]. split; [by apply list_elem_of_In | done].
Qed.

Lemma rank_sorted `{RT : !JsRuntime} (q : string) (candidates : list Memory.t) :
  most_recent_first (to_hit <$> rank q candidates).
Proof.
  unfold most_recent_first, rank. rewrite js_slice_head, fmap_take, <- js_sort_to_hit.
  apply take_StronglySorted. apply (js_sort_sorted Hit.timestamp).
Qed.

Lemma Dragonfly_results_run `{RT : !JsRuntime} (w : World) (args : jsval) (st : Server)
    (q u : string) :
  wf st → searchMemories_schema args = inr (q, u) →
  Dragonfly_results w args st = inr (search_of_view w q u (user_view u st)).
Proof.
  intros Hwf Hargs. unfold Dragonfly_results.
  by destruct (Dragonfly_search_run w args st q u Hwf Hargs) as (st' & -> & _).
Qed.

Lemma InMemory_results_run `{RT : !JsRuntime} (args : jsval) (st : Server) (q u : string) :
  wf st → searchMemories_schema args = inr (q, u) →
  InMemory_results args st = inr (to_hit <$> rank q (of_user u (fallback st))).
Proof.
  intros Hwf Hargs. unfold InMemory_results.
  by destruct (InMemory_search_run args st q u Hwf Hargs) as (st' & -> & _).
Qed.

(** X9: whatever the Redis commands of the call do, a search returns at
    most 10 results and returns them most recent first, in both builds. *)
Theorem search_results_bounded_and_ordered `{RT : !JsRuntime} (w : World) (args : jsval)
    (st : Server) (q u : string) :
  wf st → searchMemories_schema args = inr (q, u) →
  (∃ results, Dragonfly_results w args st = inr results ∧
              (length results ≤ 10)%nat ∧ most_recent_first results) ∧
  (∃ results, InMemory_results args st = inr results ∧
              (length results ≤ 10)%nat ∧ most_recent_first results).
Proof.
  intros Hwf Hargs. split.
  - rewrite (Dragonfly_results_run w args st q u Hwf Hargs). eexists. split; [done |].
    destruct (search_of_view_shape w q u (user_view u st)) as [(hits & _ & ->)| ->].
    + split; [rewrite length_take; lia |].
      apply take_StronglySorted. apply (js_sort_sorted Hit.timestamp).
    + split; [| apply rank_sorted].
      unfold rank. rewrite js_slice_head, length_fmap, length_take. lia.
  - rewrite (InMemory_results_run args st q u Hwf Hargs). eexists. split; [done |].
    split; [| apply rank_sorted].
    unfold rank. rewrite js_slice_head, length_fmap, length_take. lia.
Qed.

Lemma search_results_bounded_and_ordered_witness :
  let st := pushed (new_memory calm "Hello World" "u1") server0 in
  wf st ∧ searchMemories_schema (search_args "hello" "u1") = inr ("hello", "u1") ∧
  (∃ results,
     Dragonfly_results (RT := ascii_runtime) outage (search_args "hello" "u1") st
     = inr results ∧
     (length results ≤ 10)%nat ∧ most_recent_first results) ∧
  (∃ results,
     InMemory_results (RT := ascii_runtime) (search_args "hello" "u1") st = inr results ∧
     (length results ≤ 10)%nat ∧ most_recent_first results).
Proof.
  intros st. split; [apply pushed_wf |]. split; [reflexivity |].
  apply (search_results_bounded_and_ordered (RT := ascii_runtime) outage
           (search_args "hello" "u1") st "hello" "u1");
    [apply pushed_wf | reflexivity].
Defined.

(** X10: whatever the Redis commands of the call do, every result of a
    search is a memory whose lower-cased content contains the lower-cased
    query, and it is a memory of the searching user in the fallback
    sequence or the record that a member of the user's index points to
    under the user's key; the in-memory build returns memories of the
    fallback sequence only. *)
Theorem search_results_sound `{RT : !JsRuntime} (w : World) (args : jsval) (st : Server)
    (q u : string) (h : Hit.t) :
  wf st → searchMemories_schema args = inr (q, u) →
  (∀ results, Dragonfly_results w args st = inr results → h ∈ results →
     ∃ m, h = to_hit m ∧ matches q m ∧
          ((m ∈ fallback st ∧ Memory.userId m = u) ∨
           ∃ mem score, index_of u (redis st) !! mem = Some score ∧
                        Redis.get (Dragonfly.memoryKey u mem) (redis st) = Some m)) ∧
  (∀ results, InMemory_results args st = inr results → h ∈ results →
     ∃ m, h = to_hit m ∧ matches q m ∧ m ∈ fallback st ∧ Memory.userId m = u).
Proof.
  intros Hwf Hargs.
  assert (∀ m, m ∈ rank q (of_user u (fallback st)) →
               matches q m ∧ m ∈ fallback st ∧ Memory.userId m = u) as Hrank.
  { intros m Hm. apply rank_elem in Hm as [Hm Hrel]. split; [by apply relevant_matches |].
    unfold of_user in Hm. apply list_elem_of_In, filter_In in Hm as [Hm Hu].
    split; [by apply list_elem_of_In | by apply String.eqb_eq]. }
  split.
  - intros results Hres Hh.
    rewrite (Dragonfly_results_run w args st q u Hwf Hargs) in Hres. injection Hres as <-.
    destruct (search_of_view_shape w q u (user_view u st)) as [(hits & Hc & Heq)|Heq];
      rewrite Heq in Hh.
    + apply subseteq_take in Hh. rewrite <- (js_sort_perm Hit.timestamp) in Hh.
      destruct (collected_from _ _ _ _ _ _ Hc h Hh) as [Hnil|(mem & m & Hin & Hrel & ->)];
        [by apply elem_of_nil in Hnil |].
      exists m. split_and!; [done | by apply relevant_matches |]. right.
      unfold user_view, durable_view in Hin. cbn [fst snd] in Hin.
      apply list_elem_of_fmap in Hin as (mem' & [= <- Hget] & Hmem).
      apply zrevrange_members in Hmem as (zs & score & Hzs & Hmem).
      exists mem, score. unfold index_of. rewrite Hzs. done.
    + apply list_elem_of_fmap in Hh as (m & -> & Hm).
      destruct (Hrank m Hm) as (? & ? & ?). exists m. split_and!; [done | done |]. by left.
  - intros results Hres Hh.
    rewrite (InMemory_results_run args st q u Hwf Hargs) in Hres. injection Hres as <-.
    apply list_elem_of_fmap in Hh as (m & -> & Hm).
    destruct (Hrank m Hm) as (? & ? & ?). by exists m.
Qed.

Lemma search_results_sound_witness :
  let st := pushed (new_memory calm "Hello World" "u1") server0 in
  let h := to_hit (new_memory calm "Hello World" "u1") in
  wf st ∧ searchMemories_schema (search_args "hello" "u1") = inr ("hello", "u1") ∧
  (∀ results,
     Dragonfly_results (RT := ascii_runtime) outage (search_args "hello" "u1") st
     = inr results → h ∈ results →
     ∃ m, h = to_hit m ∧ matches (RT := ascii_runtime) "hello" m ∧
          ((m ∈ fallback st ∧ Memory.userId m = "u1") ∨
           ∃ mem score, index_of "u1" (redis st) !! mem = Some score ∧
                        Redis.get (Dragonfly.memoryKey "u1" mem) (redis st) = Some m)) ∧
  (∀ results,
     InMemory_results (RT := ascii_runtime) (search_args "hello" "u1") st = inr results →
     h ∈ results →
     ∃ m, h = to_hit m ∧ matches (RT := ascii_runtime) "hello" m ∧
          m ∈ fallback st ∧ Memory.userId m = "u1").
Proof.
  intros st h. split; [apply pushed_wf |]. split; [reflexivity |].
  apply (search_results_sound (RT := ascii_runtime) outage (search_args "hello" "u1") st
           "hello" "u1" h); [apply pushed_wf | reflexivity].
Defined.

(* ===================================================================== *)
(** * The two builds side by side *)
(* ===================================================================== *)

Lemma outage_call `{RT : !JsRuntime} (w : World) (params : CallToolParams) (st : Server) :
  down w → Dragonfly.tools_call w params st = InMemory.tools_call w params st.
Proof.
  intros [Hset Hz]. unfold Dragonfly.tools_call, InMemory.tools_call.
  destruct (strict_eq (name params) "add-memory").
  - unfold try_catch.
    replace (Dragonfly.addMemory w (arguments params) st)
      with (InMemory.addMemory w (arguments params) st); [done |].
    destruct (addMemory_schema (arguments params)) as [e|[c u]] eqn:Hs.
    + by rewrite (InMemory_addMemory_err w _ st e Hs), (Dragonfly_addMemory_err w _ st e Hs).
    + rewrite (InMemory_addMemory_ok w _ st c u Hs), (Dragonfly_addMemory_ok w _ st c u Hs).
      unfold added. by rewrite Hset.
  - destruct (strict_eq (name params) "search-memories"); [| done].
    unfold try_catch.
    replace (Dragonfly.searchMemories w (arguments params) st)
      with (InMemory.searchMemories (arguments params) st); [done |].
    rewrite InMemory_searchMemories_unfold, Dragonfly_searchMemories_unfold.
    replace (Dragonfly.searchMemories_results w (arguments params) st)
      with (InMemory.searchMemories_results (arguments params) st); [done |].
    rewrite InMemory_search_unfold.
    unfold Dragonfly.searchMemories_results, lift, try_catch, redis_zrevrange.
    unfold mbind at 1. unfold M_bind at 1.
    destruct (searchMemories_schema (arguments params)) as [e|[q u]]; [done |].
    unfold mbind at 1. unfold M_bind at 1.
    unfold mbind at 1. unfold M_bind at 1. rewrite Hz.
    by destruct (Dragonfly.fallback_search q u st) as [[e|r] st'].
Qed.

Lemma InMemory_step_redis `{RT : !JsRuntime} (w : World) (params : CallToolParams)
    (st : Server) :
  wf st → redis (InMemory.tools_call w params st).2 = redis st.
Proof.
  intros Hwf. destruct (InMemory_step w params st Hwf) as [Hsame|(c & u & _ & _ & ->)];
    [by destruct Hsame as (_ & ? & _) | done].
Qed.

(** X11: while every Redis write and index read throws, the DragonflyDB
    build is the in-memory build: over any sequence of calls the two give
    the same replies and end in the same server, and the Redis server is
    never written. *)
Theorem outage_is_in_memory `{RT : !JsRuntime} (calls : list (World * CallToolParams))
    (st : Server) :
  wf st → Forall (λ c, down c.1) calls →
  Dragonfly_replies calls st = InMemory_replies calls st ∧
  Dragonfly_serve calls st = InMemory_serve calls st ∧
  redis (Dragonfly_serve calls st) = redis st.
Proof.
  intros Hwf Hcalls. revert st Hwf.
  induction Hcalls as [|[w params] calls Hdown _ IH]; intros st Hwf; [done |].
  simpl in *. rewrite (outage_call w params st Hdown).
  destruct (IH (InMemory.tools_call w params st).2) as (Hr & Hs & Hredis).
  { apply (InMemory_step_fallback w params st Hwf). }
  rewrite Hr, Hs. split_and!; [done | done |].
  rewrite <- Hs, Hredis. by apply InMemory_step_redis.
Qed.

Lemma outage_is_in_memory_witness :
  let st := pushed (new_memory calm "Hello World" "u1") server0 in
  let calls := [(outage, call "add-memory" (add_args "again" "u1"));
                (outage, call "search-memories" (search_args "a" "u1"))] in
  wf st ∧ Forall (λ c, down c.1) calls ∧
  Dragonfly_replies (RT := ascii_runtime) calls st
  = InMemory_replies (RT := ascii_runtime) calls st ∧
  Dragonfly_serve (RT := ascii_runtime) calls st
  = InMemory_serve (RT := ascii_runtime) calls st ∧
  redis (Dragonfly_serve (RT := ascii_runtime) calls st) = redis st.
Proof.
  intros st calls.
  assert (Forall (λ c : World * CallToolParams, down c.1) calls) as Hcalls.
  { constructor; [| constructor; [| constructor]]; split; reflexivity. }
  split; [apply pushed_wf |]. split; [done |].
  apply (outage_is_in_memory (RT := ascii_runtime) calls st); [apply pushed_wf | done].
Defined.

(* ===================================================================== *)
(** * Searches read, they do not write *)
(* ===================================================================== *)

Lemma same_stores_reply `{RT : !JsRuntime} (w : World) (params : CallToolParams)
    (st st' : Server) :
  wf st → same_stores st st' →
  (Dragonfly.tools_call w params st').1 = (Dragonfly.tools_call w params st).1 ∧
  (InMemory.tools_call w params st').1 = (InMemory.tools_call w params st).1.
Proof.
  intros Hwf Hsame. pose proof (same_stores_wf _ _ Hsame Hwf) as Hwf'.
  destruct (strict_eq (name params) "add-memory") eqn:Hadd.
  - rewrite !Dragonfly_call_add, !InMemory_call_add by done.
    destruct (addMemory_schema (arguments params)) as [e|[c u]] eqn:Hs.
    + pose proof (zod_not_McpError _ _ _ _ _ Hs) as Hnot.
      rewrite !(handler_wraps _ _ _ _ (Dragonfly_addMemory_err w _ _ e Hs)) by done.
      rewrite !(handler_wraps _ _ _ _ (InMemory_addMemory_err w _ _ e Hs)) by done.
      done.
    + rewrite !(handler_returns _ _ _ _ (Dragonfly_addMemory_ok w _ _ c u Hs)).
      rewrite !(handler_returns _ _ _ _ (InMemory_addMemory_ok w _ _ c u Hs)).
      done.
  - destruct (strict_eq (name params) "search-memories") eqn:Hsearch.
    + rewrite !Dragonfly_call_search, !InMemory_call_search by done.
      destruct (searchMemories_schema (arguments params)) as [e|[q u]] eqn:Hs.
      * pose proof (zod_not_McpError _ _ _ _ _ Hs) as Hnot.
        rewrite !(handler_wraps _ _ _ _ (Dragonfly_search_err w _ _ e Hs)) by done.
        rewrite !(handler_wraps _ _ _ _ (InMemory_search_err _ _ e Hs)) by done.
        done.
      * destruct (Dragonfly_search_answer w _ st q u Hwf Hs) as (s1 & H1 & _).
        destruct (Dragonfly_search_answer w _ st' q u Hwf' Hs) as (s2 & H2 & _).
        destruct (InMemory_search_answer _ st q u Hwf Hs) as (s3 & H3 & _).
        destruct (InMemory_search_answer _ st' q u Hwf' Hs) as (s4 & H4 & _).
        rewrite (handler_returns _ _ _ _ H1), (handler_returns _ _ _ _ H2),
          (handler_returns _ _ _ _ H3), (handler_returns _ _ _ _ H4).
        cbn [fst]. by rewrite (same_stores_view u _ _ Hsame), (same_stores_fallback _ _ Hsame).
    + destruct (call_unknown w params st Hadd Hsearch) as [-> ->].
      destruct (call_unknown w params st' Hadd Hsearch) as [-> ->]. done.
Qed.

(** X12: a [search-memories] call only reads. After it the Redis server
    and the fallback sequence are what they were, and any call that
    follows is answered as it would have been without the search, so that
    a search repeated gives the same answer; this holds in both builds and
    whatever the Redis commands of the search did. *)
Theorem search_is_read_only `{RT : !JsRuntime} (w w' : World)
    (search next : CallToolParams) (st : Server) :
  wf st → strict_eq (name search) "search-memories" = true →
  let d := (Dragonfly.tools_call w search st).2 in
  let i := (InMemory.tools_call w search st).2 in
  redis d = redis st ∧ fallback d = fallback st ∧
  redis i = redis st ∧ fallback i = fallback st ∧
  (Dragonfly.tools_call w' next d).1 = (Dragonfly.tools_call w' next st).1 ∧
  (InMemory.tools_call w' next i).1 = (InMemory.tools_call w' next st).1.
Proof.
  intros Hwf Hsearch d i.
  pose proof (strict_eq_search_not_add _ Hsearch) as Hadd.
  assert (same_stores st d) as Hd.
  { destruct (Dragonfly_step w search st Hwf) as [H|(? & ? & ? & _)]; [done | congruence]. }
  assert (same_stores st i) as Hi.
  { destruct (InMemory_step w search st Hwf) as [H|(? & ? & ? & _)]; [done | congruence]. }
  split_and!.
  - by destruct Hd as (_ & ? & _).
  - by apply same_stores_fallback.
  - by destruct Hi as (_ & ? & _).
  - by apply same_stores_fallback.
  - by apply same_stores_reply.
  - by apply same_stores_reply.
Qed.

Lemma search_is_read_only_witness :
  let st := pushed (new_memory calm "Hello World" "u1") server0 in
  let search := call "search-memories" (search_args "hello" "u1") in
  wf st ∧ strict_eq (name search) "search-memories" = true ∧
  let d := (Dragonfly.tools_call (RT := ascii_runtime) outage search st).2 in
  let i := (InMemory.tools_call (RT := ascii_runtime) outage search st).2 in
  redis d = redis st ∧ fallback d = fallback st ∧
  redis i = redis st ∧ fallback i = fallback st ∧
  (Dragonfly.tools_call (RT := ascii_runtime) calm search d).1
  = (Dragonfly.tools_call (RT := ascii_runtime) calm search st).1 ∧
  (InMemory.tools_call (RT := ascii_runtime) calm search i).1
  = (InMemory.tools_call (RT := ascii_runtime) calm search st).1.
Proof.
  intros st search. split; [apply pushed_wf |]. split; [reflexivity |].
  apply (search_is_read_only (RT := ascii_runtime) outage calm search search st);
    [apply pushed_wf | reflexivity].
Defined.

(* ===================================================================== *)
(** * The user a call acts for *)
(* ===================================================================== *)

Lemma schema_default_userId (k1 : string) (members : list (string * jsval)) :
  String.eqb k1 "userId" = false →
  member "userId" members = JUndefined →
  Zod.object2 k1 Zod.string_ "userId" (Zod.string_default "quinn_may") (JObj members)
  = Zod.object2 k1 Zod.string_ "userId" (Zod.string_default "quinn_may")
      (JObj (("userId", JStr "quinn_may") :: members)).
Proof.
  intros Hk Hu. unfold Zod.object2. cbn [member]. rewrite Hk, Hu.
  change (String.eqb "userId" "userId") with true. cbn.
  by destruct (Zod.string_ [k1] (member k1 members)).
Qed.

Lemma Dragonfly_call_by_schema `{RT : !JsRuntime} (w : World) (n args1 args2 : jsval)
    (st : Server) :
  addMemory_schema args1 = addMemory_schema args2 →
  searchMemories_schema args1 = searchMemories_schema args2 →
  Dragonfly.tools_call w {| name := n; arguments := args1 |} st
  = Dragonfly.tools_call w {| name := n; arguments := args2 |} st.
Proof.
  intros Ha Hs. unfold Dragonfly.tools_call, Dragonfly.addMemory, Dragonfly.searchMemories,
    Dragonfly.searchMemories_results. cbn [name arguments]. by rewrite Ha, Hs.
Qed.

Lemma InMemory_call_by_schema `{RT : !JsRuntime} (w : World) (n args1 args2 : jsval)
    (st : Server) :
  addMemory_schema args1 = addMemory_schema args2 →
  searchMemories_schema args1 = searchMemories_schema args2 →
  InMemory.tools_call w {| name := n; arguments := args1 |} st
  = InMemory.tools_call w {| name := n; arguments := args2 |} st.
Proof.
  intros Ha Hs. unfold InMemory.tools_call, InMemory.addMemory, InMemory.searchMemories,
    InMemory.searchMemories_results. cbn [name arguments]. by rewrite Ha, Hs.
Qed.

(** X13: a call whose arguments have no [userId] is the call with [userId]
    ["quinn_may"]: same reply, same effect on the server, in both tools and
    both builds. All callers that leave [userId] out share the memories of
    that one user. *)
Theorem absent_userId_is_quinn_may `{RT : !JsRuntime} (w : World) (n : jsval)
    (members : list (string * jsval)) (st : Server) :
  member "userId" members = JUndefined →
  Dragonfly.tools_call w {| name := n; arguments := JObj members |} st
  = Dragonfly.tools_call w
      {| name := n; arguments := JObj (("userId", JStr "quinn_may") :: members) |} st ∧
  InMemory.tools_call w {| name := n; arguments := JObj members |} st
  = InMemory.tools_call w
      {| name := n; arguments := JObj (("userId", JStr "quinn_may") :: members) |} st.
Proof.
  intros Hu. split.
  - apply Dragonfly_call_by_schema; by apply schema_default_userId.
  - apply InMemory_call_by_schema; by apply schema_default_userId.
Qed.

Lemma absent_userId_is_quinn_may_witness :
  let members := [("content", JStr "note")] in
  member "userId" members = JUndefined ∧
  Dragonfly.tools_call (RT := ascii_runtime) calm
    {| name := JStr "add-memory"; arguments := JObj members |} server0
  = Dragonfly.tools_call (RT := ascii_runtime) calm
      {| name := JStr "add-memory";
         arguments := JObj (("userId", JStr "quinn_may") :: members) |} server0 ∧
  InMemory.tools_call (RT := ascii_runtime) calm
    {| name := JStr "add-memory"; arguments := JObj members |} server0
  = InMemory.tools_call (RT := ascii_runtime) calm
      {| name := JStr "add-memory";
         arguments := JObj (("userId", JStr "quinn_may") :: members) |} server0.
Proof.
  split; [reflexivity |].
  apply (absent_userId_is_quinn_may (RT := ascii_runtime)). reflexivity.
Defined.

(* ===================================================================== *)
(** * The two stores do not see each other *)
(* ===================================================================== *)

Lemma Dragonfly_add_state `{RT : !JsRuntime} (w : World) (args : jsval) (c u : string)
    (st : Server) :
  addMemory_schema args = inr (c, u) →
  (Dragonfly.tools_call w {| name := JStr "add-memory"; arguments := args |} st).2
  = added w (new_memory w c u) st.
Proof.
  intros Hs. rewrite Dragonfly_call_add by done. cbn [arguments].
  by rewrite (handler_returns _ _ _ _ (Dragonfly_addMemory_ok w args st c u Hs)).
Qed.

Lemma Dragonfly_results_healthy `{RT : !JsRuntime} (w : World) (args : jsval)
    (st : Server) (q u : string) :
  wf st → searchMemories_schema args = inr (q, u) →
  zrevrange_ok w = true → (∀ j, get_ok w j = true) →
  Dragonfly_results w args st = inr (to_hit <$> rank q (indexed_records u (redis st))).
Proof.
  intros Hwf Hs Hz Hg. rewrite (Dragonfly_results_run w args st q u Hwf Hs).
  by rewrite search_of_view_healthy.
Qed.

Lemma Dragonfly_results_down `{RT : !JsRuntime} (w : World) (args : jsval)
    (st : Server) (q u : string) :
  wf st → searchMemories_schema args = inr (q, u) → zrevrange_ok w = false →
  Dragonfly_results w args st = inr (to_hit <$> rank q (of_user u (fallback st))).
Proof.
  intros Hwf Hs Hz. rewrite (Dragonfly_results_run w args st q u Hwf Hs).
  unfold search_of_view. by rewrite Hz.
Qed.

(** X14: the two stores are not merged by a search. A memory that went to
    the fallback sequence because its record write threw is not returned
    by a search whose Redis commands go through: that search answers as
    before the add. A memory written to Redis is not returned by a search
    whose index read throws: that search, too, answers as before the add. *)
Theorem stores_are_not_merged `{RT : !JsRuntime} (w w' : World) (aargs sargs : jsval)
    (c u q u' : string) (st : Server) :
  wf st → addMemory_schema aargs = inr (c, u) → searchMemories_schema sargs = inr (q, u') →
  let m := new_memory w c u in
  let st' :=
    (Dragonfly.tools_call w {| name := JStr "add-memory"; arguments := aargs |} st).2 in
  (set_ok w = false → zrevrange_ok w' = true → (∀ j, get_ok w' j = true) →
   fallback st' = fallback st ++ [m] ∧
   Dragonfly_results w' sargs st' = Dragonfly_results w' sargs st) ∧
  (set_ok w = true → zadd_ok w = true → zrevrange_ok w' = false →
   in_durable m st' ∧
   Dragonfly_results w' sargs st' = Dragonfly_results w' sargs st).
Proof.
  intros Hwf Ha Hs m st'. subst st'. rewrite (Dragonfly_add_state w aargs c u st Ha).
  fold m. unfold added. split.
  - intros -> Hz Hg. split; [apply fallback_pushed |].
    rewrite (Dragonfly_results_healthy w' sargs _ q u' (pushed_wf m st) Hs Hz Hg).
    by rewrite (Dragonfly_results_healthy w' sargs st q u' Hwf Hs Hz Hg).
  - intros -> -> Hz. split; [apply index_written_holds |].
    rewrite (Dragonfly_results_down w' sargs _ q u'); [| done | done | done].
    by rewrite (Dragonfly_results_down w' sargs st q u' Hwf Hs Hz).
Qed.

Lemma stores_are_not_merged_witness :
  let aargs := add_args "Hello World" "u1" in
  let sargs := search_args "hello" "u1" in
  wf server0 ∧ addMemory_schema aargs = inr ("Hello World", "u1") ∧
  searchMemories_schema sargs = inr ("hello", "u1") ∧
  let m := new_memory outage "Hello World" "u1" in
  let st' :=
    (Dragonfly.tools_call (RT := ascii_runtime) outage
       {| name := JStr "add-memory"; arguments := aargs |} server0).2 in
  (set_ok outage = false → zrevrange_ok calm = true → (∀ j, get_ok calm j = true) →
   fallback st' = fallback server0 ++ [m] ∧
   Dragonfly_results (RT := ascii_runtime) calm sargs st'
   = Dragonfly_results (RT := ascii_runtime) calm sargs server0) ∧
  (set_ok outage = true → zadd_ok outage = true → zrevrange_ok calm = false →
   in_durable m st' ∧
   Dragonfly_results (RT := ascii_runtime) calm sargs st'
   = Dragonfly_results (RT := ascii_runtime) calm sargs server0).
Proof.
  intros aargs sargs. split; [apply new_server_inv |]. split; [reflexivity |].
  split; [reflexivity |].
  apply (stores_are_not_merged (RT := ascii_runtime) outage calm aargs sargs
           "Hello World" "u1" "hello" "u1" server0);
    [apply new_server_inv | reflexivity | reflexivity].
Defined.

Lemma append_inv_head (p a b : string) : p +:+ a = p +:+ b → a = b.
Proof. induction p as [|c p IH]; simpl; [done |]. intros H. apply IH. by injection H. Qed.

Lemma memoryKey_inj_id (u a b : string) :
  Dragonfly.memoryKey u a = Dragonfly.memoryKey u b → a = b.
Proof.
  unfold Dragonfly.memoryKey. intros H.
  apply (append_inv_head "memory:"), (append_inv_head u), (append_inv_head ":") in H. done.
Qed.

Lemma durable_view_set_unindexed (u id : string) (m : Memory.t) (r : Redis.t) :
  index_of u r !! id = None →
  durable_view u (Redis.set (Dragonfly.memoryKey u id) m r) = durable_view u r.
Proof.
  intros Hid. unfold durable_view. f_equal.
  apply Forall_fmap_ext_1, Forall_forall. intros mem Hmem. f_equal.
  change (Redis.zrevrange (Dragonfly.indexKey u) 0 99
            (Redis.set (Dragonfly.memoryKey u id) m r))
    with (Redis.zrevrange (Dragonfly.indexKey u) 0 99 r) in Hmem.
  apply zrevrange_members in Hmem as (zs & score & Hzs & Hmem).
  unfold Redis.get, Redis.set. cbn [Redis.strings].
  apply lookup_insert_ne. intros Hkey. apply memoryKey_inj_id in Hkey as ->.
  unfold index_of in Hid. rewrite Hzs in Hid. simpl in Hid. congruence.
Qed.

Lemma indexed_records_of_view (u : string) (r1 r2 : Redis.t) :
  durable_view u r1 = durable_view u r2 → indexed_records u r1 = indexed_records u r2.
Proof. intros H. by rewrite <- !view_found, H. Qed.

(** X15: a record whose index write threw is out of reach of the Redis
    search. When the record write goes through and the index write throws
    for an id that the user's index does not have, the record sits in
    Redis under its key, yet every search whose Redis commands go through
    answers as before the add, for every user and query. *)
Theorem unindexed_record_is_unreachable `{RT : !JsRuntime} (w w' : World)
    (aargs sargs : jsval) (c u q u' : string) (st : Server) :
  inv st → JsString.radix36_fraction (random36 w) = true →
  addMemory_schema aargs = inr (c, u) → searchMemories_schema sargs = inr (q, u') →
  set_ok w = true → zadd_ok w = false →
  index_of u (redis st) !! new_id w = None →
  zrevrange_ok w' = true → (∀ j, get_ok w' j = true) →
  let st' :=
    (Dragonfly.tools_call w {| name := JStr "add-memory"; arguments := aargs |} st).2 in
  in_durable (new_memory w c u) st' ∧
  Dragonfly_results w' sargs st' = Dragonfly_results w' sargs st.
Proof.
  intros (Hwf & Hids & Hrec) Hw Ha Hs Hset Hzadd Hid Hz Hg st'. subst st'.
  rewrite (Dragonfly_add_state w aargs c u st Ha). unfold added. rewrite Hset, Hzadd.
  split; [apply record_written_holds |].
  rewrite (Dragonfly_results_healthy w' sargs _ q u' (pushed_wf _ _) Hs Hz Hg).
  rewrite (Dragonfly_results_healthy w' sargs st q u' Hwf Hs Hz Hg).
  do 3 f_equal. cbn [redis pushed set_heap set_redis].
  apply indexed_records_of_view. unfold record_written. cbn [Memory.userId Memory.id new_memory].
  destruct (decide (u = u')) as [<-|Hne].
  - by apply durable_view_set_unindexed.
  - apply durable_view_set_other; [done | done | by apply new_id_colon_free].
Qed.

Lemma unindexed_record_is_unreachable_witness :
  let aargs := add_args "Hello World" "u1" in
  let sargs := search_args "hello" "u1" in
  inv server0 ∧ JsString.radix36_fraction (random36 index_down) = true ∧
  addMemory_schema aargs = inr ("Hello World", "u1") ∧
  searchMemories_schema sargs = inr ("hello", "u1") ∧
  set_ok index_down = true ∧ zadd_ok index_down = false ∧
  index_of "u1" (redis server0) !! new_id index_down = None ∧
  zrevrange_ok calm = true ∧ (∀ j, get_ok calm j = true) ∧
  let st' :=
    (Dragonfly.tools_call (RT := ascii_runtime) index_down
       {| name := JStr "add-memory"; arguments := aargs |} server0).2 in
  in_durable (new_memory index_down "Hello World" "u1") st' ∧
  Dragonfly_results (RT := ascii_runtime) calm sargs st'
  = Dragonfly_results (RT := ascii_runtime) calm sargs server0.
Proof.
  intros aargs sargs.
  split; [apply new_server_inv |]. split; [reflexivity |]. split; [reflexivity |].
  split; [reflexivity |]. split; [reflexivity |]. split; [reflexivity |].
  split; [reflexivity |]. split; [reflexivity |]. split; [reflexivity |].
  apply (unindexed_record_is_unreachable (RT := ascii_runtime) index_down calm aargs sargs
           "Hello World" "u1" "hello" "u1" server0);
    try reflexivity. apply new_server_inv.
Defined.

(* ===================================================================== *)
(** * Adding, then searching *)
(* ===================================================================== *)

Section Newest.
Context {A : Type} (key : A → Z).

#[local] Abbreviation cmp := (λ a b : A, key b - key a).

Lemma js_sort_app_newest (l : list A) (x : A) :
  (∀ y, y ∈ l → key y < key x) →
  js_sort cmp (l ++ [x]) = x :: js_sort cmp l.
Proof.
  induction l as [|y l IH]; intros Hx; [done |].
  simpl. rewrite IH by (intros z Hz; apply Hx; by right). simpl.
  assert (key y < key x) as Hy by (apply Hx; left).
  destruct (Z.leb_spec (key x - key y) 0); [lia | done].
Qed.

Lemma js_sort_head_newest (l : list A) (x : A) :
  x ∈ l → (∀ y, y ∈ l → y = x ∨ key y < key x) →
  ∃ rest, js_sort cmp l = x :: rest.
Proof.
  intros Hx Hmax.
  pose proof (js_sort_perm key l) as Hperm. pose proof (js_sort_sorted key l) as Hsorted.
  destruct (js_sort cmp l) as [|h rest] eqn:Hsort.
  { apply Permutation_nil_r in Hperm. subst l. by apply elem_of_nil in Hx. }
  exists rest. f_equal.
  assert (h ∈ l) as Hh by (rewrite Hperm; left).
  destruct (Hmax h Hh) as [->|Hlt]; [done |].
  rewrite Hperm in Hx. apply elem_of_cons in Hx as [->|Hx]; [done |].
  apply StronglySorted_inv in Hsorted as [_ Hall].
  rewrite Forall_forall in Hall. specialize (Hall x Hx). simpl in Hall. lia.
Qed.

End Newest.

Lemma filter_snoc {A : Type} (p : A → bool) (l : list A) (x : A) :
  p x = true → List.filter p (l ++ [x]) = List.filter p l ++ [x].
Proof. intros Hp. rewrite List.filter_app. simpl. by rewrite Hp. Qed.

Lemma rank_newest `{RT : !JsRuntime} (q : string) (l : list Memory.t) (m : Memory.t) :
  relevant q (Memory.content m) = true →
  (∀ y, y ∈ l → Memory.timestamp y < Memory.timestamp m) →
  rank q (l ++ [m]) = m :: take 9 (rank q l).
Proof.
  intros Hrel Hnew. unfold rank. rewrite !js_slice_head, filter_snoc by done.
  rewrite (js_sort_app_newest Memory.timestamp).
  - by rewrite take_take.
  - intros y Hy. apply Hnew. apply list_elem_of_In, filter_In in Hy as [Hy _].
    by apply list_elem_of_In.
Qed.

(** X16: in the in-memory build, and in the DragonflyDB build while Redis
    is down, a memory just added is the first result of every search of
    its user whose query it contains, provided its timestamp is later than
    those of the user's earlier memories; the earlier results follow, the
    tenth of them dropped. *)
Theorem added_memory_is_first_result `{RT : !JsRuntime} (w w' : World)
    (aargs sargs : jsval) (c u q : string) (old : list Hit.t) (st : Server) :
  wf st → addMemory_schema aargs = inr (c, u) → searchMemories_schema sargs = inr (q, u) →
  relevant q c = true →
  (∀ m', m' ∈ fallback st → Memory.userId m' = u →
         Memory.timestamp m' < new_Date w) →
  InMemory_results sargs st = inr old →
  let add := {| name := JStr "add-memory"; arguments := aargs |} in
  InMemory_results sargs (InMemory.tools_call w add st).2
  = inr (to_hit (new_memory w c u) :: take 9 old) ∧
  (down w → zrevrange_ok w' = false →
   Dragonfly_results w' sargs (Dragonfly.tools_call w add st).2
   = inr (to_hit (new_memory w c u) :: take 9 old)).
Proof.
  intros Hwf Ha Hs Hrel Hnew Hold add. subst add.
  rewrite (InMemory_results_run sargs st q u Hwf Hs) in Hold. injection Hold as <-.
  assert (rank q (of_user u (fallback st ++ [new_memory w c u]))
          = new_memory w c u :: take 9 (rank q (of_user u (fallback st)))) as Hrank.
  { unfold of_user at 1. rewrite filter_snoc by apply String.eqb_refl.
    apply rank_newest; [done |]. intros y Hy.
    apply list_elem_of_In, filter_In in Hy as [Hy Hu].
    apply Hnew; [by apply list_elem_of_In | by apply String.eqb_eq]. }
  assert ((InMemory.tools_call w {| name := JStr "add-memory"; arguments := aargs |} st).2
          = pushed (new_memory w c u) st) as Hst.
  { rewrite InMemory_call_add by done. cbn [arguments].
    by rewrite (handler_returns _ _ _ _ (InMemory_addMemory_ok w aargs st c u Ha)). }
  split.
  - rewrite Hst, (InMemory_results_run sargs _ q u (pushed_wf _ _) Hs).
    rewrite fallback_pushed, Hrank. by rewrite fmap_cons, fmap_take.
  - intros Hdown Hz. rewrite (outage_call w _ st Hdown), Hst.
    rewrite (Dragonfly_results_down w' sargs _ q u (pushed_wf _ _) Hs Hz).
    rewrite fallback_pushed, Hrank. by rewrite fmap_cons, fmap_take.
Qed.

Lemma added_memory_is_first_result_witness :
  let st := pushed (new_memory calm "Hello World" "u1") server0 in
  let aargs := add_args "hello again" "u1" in
  let sargs := search_args "HELLO" "u1" in
  let old := [to_hit (new_memory calm "Hello World" "u1")] in
  wf st ∧ addMemory_schema aargs = inr ("hello again", "u1") ∧
  searchMemories_schema sargs = inr ("HELLO", "u1") ∧
  relevant (RT := ascii_runtime) "HELLO" "hello again" = true ∧
  (∀ m', m' ∈ fallback st → Memory.userId m' = "u1" →
         Memory.timestamp m' < new_Date outage) ∧
  InMemory_results (RT := ascii_runtime) sargs st = inr old ∧
  let add := {| name := JStr "add-memory"; arguments := aargs |} in
  InMemory_results (RT := ascii_runtime) sargs
    (InMemory.tools_call (RT := ascii_runtime) outage add st).2
  = inr (to_hit (new_memory outage "hello again" "u1") :: take 9 old) ∧
  (down outage → zrevrange_ok outage = false →
   Dragonfly_results (RT := ascii_runtime) outage sargs
     (Dragonfly.tools_call (RT := ascii_runtime) outage add st).2
   = inr (to_hit (new_memory outage "hello again" "u1") :: take 9 old)).
Proof.
  intros st aargs sargs old.
  assert (∀ m', m' ∈ fallback st → Memory.userId m' = "u1" →
                Memory.timestamp m' < new_Date outage) as Hnew.
  { intros m' Hm' _. unfold st in Hm'. rewrite fallback_pushed in Hm'.
    apply list_elem_of_singleton in Hm' as ->. reflexivity. }
  split; [apply pushed_wf |]. split; [reflexivity |]. split; [reflexivity |].
  split; [reflexivity |]. split; [exact Hnew |]. split; [reflexivity |].
  apply (added_memory_is_first_result (RT := ascii_runtime) outage outage aargs sargs
           "hello again" "u1" "HELLO" old st);
    [apply pushed_wf | reflexivity | reflexivity | reflexivity | exact Hnew | reflexivity].
Defined.

Lemma zrev_insert_perm (x : string * Z) (l : list (string * Z)) :
  Permutation (x :: l) (Redis.zrev_insert x l).
Proof.
  induction l as [|y l IH]; simpl; [done |].
  destruct (Redis.zrev_before x y); [done |].
  rewrite perm_swap. by constructor.
Qed.

Lemma zrev_order_perm (l : list (string * Z)) :
  Permutation l (foldr Redis.zrev_insert [] l).
Proof.
  induction l as [|x l IH]; simpl; [done |].
  rewrite <- zrev_insert_perm. by constructor.
Qed.

(** An index of at most 100 members is read whole by [ZREVRANGE 0 99]. *)
Lemma zrevrange_all (u mem : string) (r : Redis.t) :
  (size (index_of u r) ≤ 100)%nat →
  mem ∈ Redis.zrevrange (Dragonfly.indexKey u) 0 99 r ↔ is_Some (index_of u r !! mem).
Proof.
  intros Hsize. unfold Redis.zrevrange, index_of in *.
  set (zs := default ∅ (Redis.zsets r !! Dragonfly.indexKey u)) in *.
  rewrite drop_0, take_ge.
  - rewrite list_elem_of_fmap. split.
    + intros ([mem' score] & -> & H). rewrite <- zrev_order_perm in H.
      apply elem_of_map_to_list in H. by exists score.
    + intros [score H]. exists (mem, score). split; [done |].
      rewrite <- zrev_order_perm. by apply elem_of_map_to_list.
  - rewrite <- zrev_order_perm, length_map_to_list. simpl. lia.
Qed.

Lemma index_of_written (w : World) (m : Memory.t) (r : Redis.t) :
  index_of (Memory.userId m) (index_written w m (record_written m r))
  = <[Memory.id m := Date_now w]> (index_of (Memory.userId m) r).
Proof.
  unfold index_of, index_written, record_written, Redis.zadd, Redis.set.
  cbn [Redis.zsets]. by rewrite lookup_insert_eq.
Qed.

Lemma get_written_other (w : World) (m : Memory.t) (mem : string) (r : Redis.t) :
  mem ≠ Memory.id m →
  Redis.get (Dragonfly.memoryKey (Memory.userId m) mem)
    (index_written w m (record_written m r))
  = Redis.get (Dragonfly.memoryKey (Memory.userId m) mem) r.
Proof.
  intros Hne. unfold Redis.get, index_written, record_written, Redis.zadd, Redis.set.
  cbn [Redis.strings]. apply lookup_insert_ne. intros H.
  by apply memoryKey_inj_id in H.
Qed.

(** X17: with Redis answering, a memory just added is the first result of
    every search of its user whose query it contains, provided the user's
    index has fewer than 100 members and the records they point to are
    older than the new memory. *)
Theorem added_memory_is_found_through_redis `{RT : !JsRuntime} (w w' : World)
    (aargs sargs : jsval) (c u q : string) (st : Server) :
  wf st → addMemory_schema aargs = inr (c, u) → searchMemories_schema sargs = inr (q, u) →
  set_ok w = true → zadd_ok w = true →
  zrevrange_ok w' = true → (∀ j, get_ok w' j = true) →
  relevant q c = true →
  (size (index_of u (redis st)) < 100)%nat →
  (∀ mem score m',
     index_of u (redis st) !! mem = Some score →
     Redis.get (Dragonfly.memoryKey u mem) (redis st) = Some m' →
     Memory.timestamp m' < new_Date w) →
  ∃ rest,
    Dragonfly_results w' sargs
      (Dragonfly.tools_call w {| name := JStr "add-memory"; arguments := aargs |} st).2
    = inr (to_hit (new_memory w c u) :: rest).
Proof.
  intros Hwf Ha Hs Hset Hzadd Hz Hg Hrel Hsize Hold.
  rewrite (Dragonfly_add_state w aargs c u st Ha).
  rewrite (Dragonfly_results_healthy w' sargs _ q u (added_wf w _ st Hwf) Hs Hz Hg).
  unfold added. rewrite Hset, Hzadd.
  set (m := new_memory w c u).
  set (r' := index_written w m (record_written m (redis st))).
  change (redis (set_redis r' st)) with r'.
  assert (index_of u r' = <[Memory.id m := Date_now w]> (index_of u (redis st))) as Hindex
    by apply (index_of_written w m).
  assert (size (index_of u r') ≤ 100)%nat as Hsize'.
  { rewrite Hindex, map_size_insert. destruct (index_of u (redis st) !! Memory.id m); simpl; lia. }
  assert (m ∈ indexed_records u r') as Hin.
  { unfold indexed_records. apply list_elem_of_omap. exists (Memory.id m). split.
    - apply (zrevrange_all u _ r' Hsize'). rewrite Hindex, lookup_insert_eq. eauto.
    - apply (index_written_holds w m). }
  assert (∀ y, y ∈ indexed_records u r' →
               y = m ∨ Memory.timestamp y < Memory.timestamp m) as Hmax.
  { intros y Hy. unfold indexed_records in Hy.
    apply list_elem_of_omap in Hy as (mem & Hmem & Hget).
    apply (zrevrange_all u _ r' Hsize') in Hmem as [score Hmem].
    destruct (decide (mem = Memory.id m)) as [->|Hne].
    - left. pose proof (index_written_holds w m (redis st)) as Hm.
      change (Memory.userId m) with u in Hm. fold r' in Hm. congruence.
    - right. rewrite Hindex, lookup_insert_ne in Hmem by done.
      pose proof (get_written_other w m mem (redis st) Hne) as Hsame.
      change (Memory.userId m) with u in Hsame. fold r' in Hsame.
      rewrite Hsame in Hget. by apply (Hold mem score y). }
  destruct (js_sort_head_newest Memory.timestamp
              (List.filter (λ memory, relevant q (Memory.content memory))
                 (indexed_records u r')) m) as [rest Hsort].
  - apply list_elem_of_In, filter_In. split; [by apply list_elem_of_In | done].
  - intros y Hy. apply list_elem_of_In, filter_In in Hy as [Hy _].
    apply Hmax. by apply list_elem_of_In.
  - exists (to_hit <$> take 9 rest). unfold rank. rewrite js_slice_head.
    change by_recency with (λ a b : Memory.t, Memory.timestamp b - Memory.timestamp a).
    by rewrite Hsort.
Qed.

Lemma added_memory_is_found_through_redis_witness :
  let aargs := add_args "Hello World" "u1" in
  let sargs := search_args "hello" "u1" in
  wf server0 ∧ addMemory_schema aargs = inr ("Hello World", "u1") ∧
  searchMemories_schema sargs = inr ("hello", "u1") ∧
  set_ok calm = true ∧ zadd_ok calm = true ∧
  zrevrange_ok calm_later = true ∧ (∀ j, get_ok calm_later j = true) ∧
  relevant (RT := ascii_runtime) "hello" "Hello World" = true ∧
  (size (index_of "u1" (redis server0)) < 100)%nat ∧
  (∀ mem score m',
     index_of "u1" (redis server0) !! mem = Some score →
     Redis.get (Dragonfly.memoryKey "u1" mem) (redis server0) = Some m' →
     Memory.timestamp m' < new_Date calm) ∧
  ∃ rest,
    Dragonfly_results (RT := ascii_runtime) calm_later sargs
      (Dragonfly.tools_call (RT := ascii_runtime) calm
         {| name := JStr "add-memory"; arguments := aargs |} server0).2
    = inr (to_hit (new_memory calm "Hello World" "u1") :: rest).
Proof.
  intros aargs sargs.
  assert (∀ mem score (m' : Memory.t),
            index_of "u1" (redis server0) !! mem = Some score →
            Redis.get (Dragonfly.memoryKey "u1" mem) (redis server0) = Some m' →
            Memory.timestamp m' < new_Date calm) as Hold.
  { intros mem score m' H. unfold index_of, server0, new_server, Redis.empty in H.
    cbn in H. by rewrite lookup_empty in H. }
  assert (size (index_of "u1" (redis server0)) < 100)%nat as Hsize.
  { unfold index_of, server0, new_server, Redis.empty. cbn.
    rewrite lookup_empty. cbn. rewrite map_size_empty. lia. }
  split; [apply new_server_inv |]. split; [reflexivity |]. split; [reflexivity |].
  split; [reflexivity |]. split; [reflexivity |]. split; [reflexivity |].
  split; [reflexivity |]. split; [reflexivity |]. split; [exact Hsize |].
  split; [exact Hold |].
  apply (added_memory_is_found_through_redis (RT := ascii_runtime) calm calm_later
           aargs sargs "Hello World" "u1" "hello" server0);
    try reflexivity; [apply new_server_inv | exact Hsize | exact Hold].
Defined.

(* ===================================================================== *)
(** * Ids are not checked for collisions *)
(* ===================================================================== *)

(** X18: an id is never checked against the ids in use. When two adds of
    one user draw the same id and their writes go through, the second
    overwrites the first: Redis ends as if the first add had never
    happened, and the key holds the second memory. When Redis is down
    instead, the fallback sequence keeps both. *)
Theorem same_id_overwrites (w1 w2 : World) (args1 args2 : jsval) (c1 c2 u : string)
    (st : Server) :
  random36 w1 = random36 w2 →
  addMemory_schema args1 = inr (c1, u) → addMemory_schema args2 = inr (c2, u) →
  let m1 := new_memory w1 c1 u in
  let m2 := new_memory w2 c2 u in
  let after_first := (Dragonfly.addMemory w1 args1 st).2 in
  let after_both := (Dragonfly.addMemory w2 args2 after_first).2 in
  Memory.id m1 = Memory.id m2 ∧
  (set_ok w1 = true → zadd_ok w1 = true → set_ok w2 = true → zadd_ok w2 = true →
   redis after_both = redis (Dragonfly.addMemory w2 args2 st).2 ∧
   Redis.get (Dragonfly.memoryKey u (Memory.id m1)) (redis after_both) = Some m2 ∧
   fallback after_both = fallback st) ∧
  (set_ok w1 = false → set_ok w2 = false →
   fallback after_both = fallback st ++ [m1; m2] ∧ redis after_both = redis st).
Proof.
  intros Hid H1 H2 m1 m2 after_first after_both. subst after_first after_both.
  assert (new_id w1 = new_id w2) as Hnew by (unfold new_id; by rewrite Hid).
  rewrite (Dragonfly_addMemory_ok w1 args1 st c1 u H1).
  rewrite !(Dragonfly_addMemory_ok w2 args2 _ c2 u H2). cbn [snd]. fold m1 m2.
  unfold added. split_and!; [done | |].
  - intros -> -> -> ->. cbn [redis set_redis]. split_and!; [| | done].
    + unfold index_written, record_written, Redis.zadd, Redis.set.
      cbn [Redis.strings Redis.zsets Memory.userId Memory.id m1 m2 new_memory].
      rewrite Hnew, lookup_insert_eq. cbn [default]. unfold id.
      by rewrite !insert_insert_eq.
    + change (Memory.id m1) with (new_id w1). rewrite Hnew.
      apply (index_written_holds w2 m2).
  - intros -> ->. rewrite !fallback_pushed. by rewrite <- app_assoc.
Qed.

Lemma same_id_overwrites_witness :
  let twin := {| random36 := random36 calm; new_Date := 1700000009000;
                 Date_now := 1700000009001; set_ok := true; zadd_ok := true;
                 zrevrange_ok := true; get_ok := λ _, true |} in
  let args1 := add_args "first" "u1" in
  let args2 := add_args "second" "u1" in
  random36 calm = random36 twin ∧
  addMemory_schema args1 = inr ("first", "u1") ∧
  addMemory_schema args2 = inr ("second", "u1") ∧
  let m1 := new_memory calm "first" "u1" in
  let m2 := new_memory twin "second" "u1" in
  let after_first := (Dragonfly.addMemory calm args1 server0).2 in
  let after_both := (Dragonfly.addMemory twin args2 after_first).2 in
  Memory.id m1 = Memory.id m2 ∧
  (set_ok calm = true → zadd_ok calm = true → set_ok twin = true → zadd_ok twin = true →
   redis after_both = redis (Dragonfly.addMemory twin args2 server0).2 ∧
   Redis.get (Dragonfly.memoryKey "u1" (Memory.id m1)) (redis after_both) = Some m2 ∧
   fallback after_both = fallback server0) ∧
  (set_ok calm = false → set_ok twin = false →
   fallback after_both = fallback server0 ++ [m1; m2] ∧ redis after_both = redis server0).
Proof.
  intros twin args1 args2. split; [reflexivity |]. split; [reflexivity |].
  split; [reflexivity |].
  apply (same_id_overwrites calm twin args1 args2 "first" "second" "u1" server0);
    reflexivity.
Defined.
